(** * RevenueLoan: a shallow embedding of the FlowCredit loan ledger

    The development follows [contracts/RevenueLoan.sol].  Unsigned 256-bit
    integers and addresses are values of [N]; Solidity 0.8 checked arithmetic
    is written out ([checked_add], [checked_mul]: an overflow reverts with
    [Panic 0x11]).  The storage mapping [loans] is a [gmap] read with the total
    lookup [!!!], whose default is the all-zero record, as for a Solidity
    mapping.  A contract function is a computation in the monad [M]: it reads
    and writes the ledger state, appends to an action log (storage writes of
    loan fields, emitted events, value transfers) and may revert, in which case
    no state survives.

    A value transfer hands control to the recipient, who may call back into the
    ledger before answering.  The recipient is a parameter of the semantics
    ([Recipient]); its callbacks run against the state in which the
    reentrancy guard is held.

    Left out: the ownership-transfer entry points inherited from Ownable (they
    only change [owner]), the automatic getters of the public state variables,
    and ether forced into the contract from outside (which can only raise
    [balance]). *)

From stdpp Require Import gmap list strings.
From Stdlib Require Import NArith Lia.

Local Open Scope N_scope.

(** ** Data model *)

Abbreviation address := N.

Definition MAX_UINT256 : N := 2 ^ 256 - 1.

Record Loan := mkLoan {
  borrower : address;
  lender : address;
  principal : N;
  revenueSharePercent : N;
  repaymentCapPercent : N;
  totalRepaid : N;
  funded : bool;
  active : bool;
  collateralAmount : N;
  startTime : N;
  duration : N
}.

(** The value a Solidity mapping yields at a key never written. *)
Definition zeroLoan : Loan := mkLoan 0 0 0 0 0 0 false false 0 0 0.

#[global] Instance Loan_inhabited : Inhabited Loan := populate zeroLoan.

Inductive Error :=
| NotBorrower
| NotLender
| LoanDoesNotExist
| LoanAlreadyFunded
| LoanAlreadyActive
| LoanNotFunded
| LoanNotActive
| InvalidPrincipal
| InvalidRevenueShare
| InvalidRepaymentCap
| InvalidDuration
| IncorrectFundingAmount
| RepaymentMustBePositive
| CollateralTooHigh
| BorrowerCannotFundOwnLoan
| LoanNotMatured
| LoanFullyRepaid
| NoCollateral
| TransferFailed
| EnforcedPause
| ExpectedPause
| OwnableUnauthorizedAccount (account : address)
| ReentrancyGuardReentrantCall
| NonPayable
| ErrorString (reason : string)
| Panic (code : N).

Definition ARITHMETIC_OVERFLOW : N := 17.

Inductive Event :=
| LoanCreated (loanId : N) (who : address)
    (amount share cap dur collateral : N)
| LoanFunded (loanId : N) (who : address)
| LoanRepaid (loanId : N) (amount : N)
| LoanClosed (loanId : N)
| CollateralClaimed (loanId : N) (claimer : address)
| LoanDefaulted (loanId : N)
| Paused (account : address)
| Unpaused (account : address).

(** The storage slots of a loan record that the mutating functions assign. *)
Inductive Slot :=
| SLender | SFunded | SActive | SStartTime | STotalRepaid | SCollateralAmount
| SRecord.

(** What a call does, in program order.  [Transfer to amount inner] is an
    external call carrying [amount] to [to]; [inner] lists the events emitted
    by the calls the recipient made back into the ledger meanwhile. *)
Inductive Action :=
| Store (loanId : N) (slot : Slot)
| Emit (e : Event)
| Transfer (to : address) (amount : N) (inner : list Event).

Record State := mkState {
  loans : gmap N Loan;
  nextLoanId : N;
  owner : address;
  paused : bool;
  entered : bool;
  balance : N
}.

Definition loanAt (s : State) (id : N) : Loan := loans s !!! id.

Definition initial (deployer : address) : State :=
  mkState ∅ 1 deployer false false 0.

(** Field updates. *)
Definition set_lender (a : address) (l : Loan) : Loan :=
  mkLoan (borrower l) a (principal l) (revenueSharePercent l)
    (repaymentCapPercent l) (totalRepaid l) (funded l) (active l)
    (collateralAmount l) (startTime l) (duration l).
Definition set_funded (b : bool) (l : Loan) : Loan :=
  mkLoan (borrower l) (lender l) (principal l) (revenueSharePercent l)
    (repaymentCapPercent l) (totalRepaid l) b (active l)
    (collateralAmount l) (startTime l) (duration l).
Definition set_active (b : bool) (l : Loan) : Loan :=
  mkLoan (borrower l) (lender l) (principal l) (revenueSharePercent l)
    (repaymentCapPercent l) (totalRepaid l) (funded l) b
    (collateralAmount l) (startTime l) (duration l).
Definition set_startTime (t : N) (l : Loan) : Loan :=
  mkLoan (borrower l) (lender l) (principal l) (revenueSharePercent l)
    (repaymentCapPercent l) (totalRepaid l) (funded l) (active l)
    (collateralAmount l) t (duration l).
Definition set_totalRepaid (v : N) (l : Loan) : Loan :=
  mkLoan (borrower l) (lender l) (principal l) (revenueSharePercent l)
    (repaymentCapPercent l) v (funded l) (active l)
    (collateralAmount l) (startTime l) (duration l).
Definition set_collateralAmount (v : N) (l : Loan) : Loan :=
  mkLoan (borrower l) (lender l) (principal l) (revenueSharePercent l)
    (repaymentCapPercent l) (totalRepaid l) (funded l) (active l)
    v (startTime l) (duration l).

Definition with_loans (m : gmap N Loan) (s : State) : State :=
  mkState m (nextLoanId s) (owner s) (paused s) (entered s) (balance s).
Definition with_nextLoanId (n : N) (s : State) : State :=
  mkState (loans s) n (owner s) (paused s) (entered s) (balance s).
Definition with_paused (b : bool) (s : State) : State :=
  mkState (loans s) (nextLoanId s) (owner s) b (entered s) (balance s).
Definition with_entered (b : bool) (s : State) : State :=
  mkState (loans s) (nextLoanId s) (owner s) (paused s) b (balance s).
Definition with_balance (v : N) (s : State) : State :=
  mkState (loans s) (nextLoanId s) (owner s) (paused s) (entered s) v.

(** ** The execution monad *)

Inductive Result (A : Type) :=
| Ok (a : A) (s : State) (log : list Action)
| Revert (e : Error).
Arguments Ok {A} a s log.
Arguments Revert {A} e.

Definition M (A : Type) : Type := State → Result A.

#[global] Instance M_ret : MRet M := λ A a s, Ok a s [].
#[global] Instance M_bind : MBind M := λ A B f m s,
  match m s with
  | Ok a s1 log1 =>
      match f a s1 with
      | Ok b s2 log2 => Ok b s2 (log1 ++ log2)
      | Revert e => Revert e
      end
  | Revert e => Revert e
  end.

Definition revert {A} (e : Error) : M A := λ _, Revert e.
Definition get : M State := λ s, Ok s s [].
Definition modify (f : State → State) : M unit := λ s, Ok tt (f s) [].
Definition tell (a : Action) : M unit := λ s, Ok tt s [a].
Definition emit (e : Event) : M unit := tell (Emit e).

(** [if (c) revert E();] *)
Definition revert_if (c : bool) (e : Error) : M unit :=
  if c then revert e else mret tt.

(** [loans[id]] read from storage. *)
Definition load (id : N) : M Loan := λ s, Ok (loanAt s id) s [].

(** [loans[id].slot = ...], logged as a store to that slot. *)
Definition store (id : N) (slot : Slot) (upd : Loan → Loan) : M unit := λ s,
  Ok tt (with_loans (<[id := upd (loanAt s id)]> (loans s)) s) [Store id slot].

Definition checked_add (a b : N) : M N :=
  if a + b <=? MAX_UINT256 then mret (a + b)
  else revert (Panic ARITHMETIC_OVERFLOW).

Definition checked_mul (a b : N) : M N :=
  if a * b <=? MAX_UINT256 then mret (a * b)
  else revert (Panic ARITHMETIC_OVERFLOW).

Definition events_of (log : list Action) : list Event :=
  omap (λ a, match a with Emit e => Some e | _ => None end) log.

(** ** Imported modifiers *)

(** Modelled from the spec: the [nonReentrant] modifier comes from the imported
    ReentrancyGuard contract, which is not under the repository's sources.  The
    spec asks that a call made by a side effect of an operation that is still
    executing fails immediately: the guard flag is tested and taken on entry and
    released when the body has run. *)
Definition nonReentrant (body : M unit) : M unit :=
  s ← get;
  revert_if (entered s) ReentrancyGuardReentrantCall;;
  modify (with_entered true);;
  body;;
  modify (with_entered false).

(** Modelled from the spec: [whenNotPaused] comes from the imported Pausable
    contract.  While the pause switch is on, guarded operations fail
    immediately and uniformly. *)
Definition whenNotPaused : M unit :=
  s ← get; revert_if (paused s) EnforcedPause.

(** Modelled from the spec: [onlyOwner] comes from the imported Ownable
    contract; only the designated administrator (the deployer, by the
    constructor [Ownable(msg.sender)]) passes. *)
Definition onlyOwner (sender : address) : M unit :=
  s ← get;
  revert_if (negb (owner s =? sender)) (OwnableUnauthorizedAccount sender).

(** Modelled from the spec: [_pause] and [_unpause] of the imported Pausable
    contract switch the flag on and off; each refuses to run when the switch is
    already in the requested position. *)
Definition _pause (sender : address) : M unit :=
  whenNotPaused;;
  modify (with_paused true);;
  emit (Paused sender).

Definition _unpause (sender : address) : M unit :=
  s ← get;
  revert_if (negb (paused s)) ExpectedPause;;
  modify (with_paused false);;
  emit (Unpaused sender).

(** ** The contract *)

Section Contract.
(** [to.call{value: amount}("")], answering the success flag. *)
Variable call_value : address → N → M bool.
(** [block.timestamp] *)
Variable now : N.

(** *** Modifiers of the contract *)

Definition onlyBorrower (sender : address) (_loanId : N) : M unit :=
  loan ← load _loanId;
  revert_if (negb (borrower loan =? sender)) NotBorrower.

Definition onlyLender (sender : address) (_loanId : N) : M unit :=
  loan ← load _loanId;
  revert_if (negb (lender loan =? sender)) NotLender.

Definition loanExists (_loanId : N) : M unit :=
  s ← get;
  revert_if ((_loanId =? 0) || (nextLoanId s <=? _loanId)) LoanDoesNotExist.

Definition loanActive (_loanId : N) : M unit :=
  loan ← load _loanId;
  revert_if (negb (active loan)) LoanNotActive.

Definition loanFunded (_loanId : N) : M unit :=
  loan ← load _loanId;
  revert_if (negb (funded loan)) LoanNotFunded.

(** *** Admin functions *)

Definition pause (sender : address) : M unit :=
  onlyOwner sender;; _pause sender.

Definition unpause (sender : address) : M unit :=
  onlyOwner sender;; _unpause sender.

(** *** Core functions *)

(** [uint256 loanId = nextLoanId++;] *)
Definition take_loanId : M N :=
  s ← get;
  next ← checked_add (nextLoanId s) 1;
  modify (with_nextLoanId next);;
  mret (nextLoanId s).

Definition createLoan (sender : address) (value : N)
    (_amount _revenueSharePercent _repaymentCapPercent _duration : N)
    : M unit :=
  whenNotPaused;;
  revert_if (_amount =? 0) InvalidPrincipal;;
  revert_if (_revenueSharePercent =? 0) InvalidRevenueShare;;
  revert_if (_repaymentCapPercent <? 100) InvalidRepaymentCap;;
  revert_if (_duration =? 0) InvalidDuration;;
  revert_if (_amount <? value) CollateralTooHigh;;
  loanId ← take_loanId;
  store loanId SRecord (λ _,
    mkLoan sender 0 _amount _revenueSharePercent _repaymentCapPercent
      0 false false value 0 _duration);;
  emit (LoanCreated loanId sender _amount _revenueSharePercent
          _repaymentCapPercent _duration value).

Definition fundLoan (sender : address) (value : N) (_loanId : N) : M unit :=
  nonReentrant (
    whenNotPaused;;
    loanExists _loanId;;
    loan ← load _loanId;
    revert_if (funded loan) LoanAlreadyFunded;;
    revert_if (active loan) LoanAlreadyActive;;
    revert_if (sender =? borrower loan) BorrowerCannotFundOwnLoan;;
    revert_if (negb (value =? principal loan)) IncorrectFundingAmount;;
    let borrower_ := borrower loan in
    store _loanId SLender (set_lender sender);;
    store _loanId SFunded (set_funded true);;
    store _loanId SActive (set_active true);;
    store _loanId SStartTime (set_startTime now);;
    emit (LoanFunded _loanId sender);;
    success ← call_value borrower_ value;
    revert_if (negb success) TransferFailed).

Definition repay (sender : address) (value : N) (_loanId : N) : M unit :=
  nonReentrant (
    whenNotPaused;;
    loanExists _loanId;;
    onlyBorrower sender _loanId;;
    loanFunded _loanId;;
    loanActive _loanId;;
    revert_if (value =? 0) RepaymentMustBePositive;;
    loan ← load _loanId;
    let principal_ := principal loan in
    let repaymentCapPercent_ := repaymentCapPercent loan in
    let lender_ := lender loan in
    let borrower_ := borrower loan in
    product ← checked_mul principal_ repaymentCapPercent_;
    let requiredRepayment := product / 100 in
    loan ← load _loanId;
    newTotalRepaid ← checked_add (totalRepaid loan) value;
    store _loanId STotalRepaid (set_totalRepaid newTotalRepaid);;
    emit (LoanRepaid _loanId value);;
    lenderSuccess ← call_value lender_ value;
    revert_if (negb lenderSuccess) TransferFailed;;
    if requiredRepayment <=? newTotalRepaid then
      store _loanId SActive (set_active false);;
      loan ← load _loanId;
      let collateral := collateralAmount loan in
      (if 0 <? collateral then
         store _loanId SCollateralAmount (set_collateralAmount 0);;
         collateralSuccess ← call_value borrower_ collateral;
         revert_if (negb collateralSuccess) TransferFailed
       else mret tt);;
      emit (LoanClosed _loanId)
    else mret tt).

Definition claimCollateral (sender : address) (_loanId : N) : M unit :=
  nonReentrant (
    whenNotPaused;;
    loanExists _loanId;;
    onlyLender sender _loanId;;
    loanFunded _loanId;;
    loanActive _loanId;;
    loan ← load _loanId;
    let startTime_ := startTime loan in
    let duration_ := duration loan in
    let principal_ := principal loan in
    let repaymentCapPercent_ := repaymentCapPercent loan in
    let totalRepaid_ := totalRepaid loan in
    let lender_ := lender loan in
    maturity ← checked_add startTime_ duration_;
    revert_if (now <=? maturity) LoanNotMatured;;
    product ← checked_mul principal_ repaymentCapPercent_;
    let requiredRepayment := product / 100 in
    revert_if (requiredRepayment <=? totalRepaid_) LoanFullyRepaid;;
    let collateral := collateralAmount loan in
    revert_if (collateral =? 0) NoCollateral;;
    store _loanId SActive (set_active false);;
    store _loanId SCollateralAmount (set_collateralAmount 0);;
    emit (LoanDefaulted _loanId);;
    emit (CollateralClaimed _loanId sender);;
    emit (LoanClosed _loanId);;
    success ← call_value lender_ collateral;
    revert_if (negb success) TransferFailed).

(** *** View functions *)

Definition getLoan (_loanId : N) : M Loan :=
  loanExists _loanId;;
  load _loanId.
End Contract.

(** ** Calls, value transfers and transactions *)

Inductive Call :=
| CreateLoan (_amount _revenueSharePercent _repaymentCapPercent _duration : N)
| FundLoan (_loanId : N)
| Repay (_loanId : N)
| ClaimCollateral (_loanId : N)
| Pause
| Unpause
| GetLoan (_loanId : N).

Record Tx := mkTx { tx_sender : address; tx_value : N; tx_call : Call }.

(** A [payable] function is entered with the attached value already credited
    to the ledger; the others refuse any value. *)
Definition payable (value : N) (body : M unit) : M unit :=
  modify (λ s, with_balance (balance s + value) s);; body.

Definition nonpayable (value : N) (body : M unit) : M unit :=
  revert_if (negb (value =? 0)) NonPayable;; body.

Definition dispatch (call_value : address → N → M bool) (now : N) (tx : Tx)
    : M unit :=
  let sender := tx_sender tx in
  let value := tx_value tx in
  match tx_call tx with
  | CreateLoan a r c d =>
      payable value (createLoan sender value a r c d)
  | FundLoan id => payable value (fundLoan call_value now sender value id)
  | Repay id => payable value (repay call_value sender value id)
  | ClaimCollateral id =>
      nonpayable value (claimCollateral call_value now sender id)
  | Pause => nonpayable value (pause sender)
  | Unpause => nonpayable value (unpause sender)
  | GetLoan id => nonpayable value (getLoan id;; mret tt)
  end.

(** How the recipient of a transfer answers: whether it accepts the value, and
    which calls it (or anyone it calls in turn) makes into the ledger before
    returning.  The answer may depend on the recipient, the amount and the
    ledger state it observes. *)
Record Reply := mkReply { accepted : bool; callbacks : list Tx }.

Definition Recipient : Type := address → N → State → Reply.

(** The callbacks of a recipient, run in order.  A callback that reverts leaves
    the state as it was (the recipient may catch the failure and go on). *)
Fixpoint reenter (run : Tx → M unit) (txs : list Tx) (s : State)
    : State * list Event :=
  match txs with
  | [] => (s, [])
  | tx :: rest =>
      match run tx s with
      | Ok _ s1 log =>
          let '(s2, evs) := reenter run rest s1 in (s2, events_of log ++ evs)
      | Revert _ => reenter run rest s
      end
  end.

(** [to.call{value: amount}("")].  The call fails when the ledger cannot cover
    [amount] or the recipient refuses; a failed call leaves no trace of what
    the recipient did. *)
Definition transfer (recipient : Recipient)
    (nested : list Tx → State → State * list Event)
    (to : address) (amount : N) : M bool := λ s,
  if balance s <? amount then Ok false s []
  else
    let s1 := with_balance (balance s - amount) s in
    let r := recipient to amount s1 in
    if accepted r then
      let '(s2, evs) := nested (callbacks r) s1 in
      Ok true s2 [Transfer to amount evs]
    else Ok false s [].

(** Every transfer of the contract is made from inside a [nonReentrant]
    function, so a callback can never get as far as a transfer of its own
    ([dispatch_entered] below): two levels describe all executions. *)
Definition call_inner (recipient : Recipient) : address → N → M bool :=
  transfer recipient (λ _ s, (s, [])).

Definition call_outer (recipient : Recipient) (now : N)
    : address → N → M bool :=
  transfer recipient (reenter (dispatch (call_inner recipient) now)).

(** A transaction sent to the ledger. *)
Definition execute (recipient : Recipient) (now : N) (tx : Tx) : M unit :=
  dispatch (call_outer recipient now) now tx.

(** The state a transaction leaves behind: a revert rolls everything back. *)
Definition step (recipient : Recipient) (now : N) (tx : Tx) (s : State)
    : State :=
  match execute recipient now tx s with
  | Ok _ s' _ => s'
  | Revert _ => s
  end.

Record Block := mkBlock {
  blk_recipient : Recipient;
  blk_now : N;
  blk_tx : Tx
}.

Definition run (history : list Block) (s : State) : State :=
  foldl (λ acc b, step (blk_recipient b) (blk_now b) (blk_tx b) acc)
    s history.

(** A recipient that accepts everything and never calls back. *)
Definition passive : Recipient := λ _ _ _, mkReply true [].

(** ** Scenario of the test suite: principal 10, share 10, cap 120, seven
    days, collateral 2; borrower 11, lender 22, deployer 99. *)
Definition WEEK : N := 604800.

Definition created : State :=
  step passive 1000 (mkTx 11 2 (CreateLoan 10 10 120 WEEK)) (initial 99).

Definition funded1 : State :=
  step passive 2000 (mkTx 22 10 (FundLoan 1)) created.

(** ** The second copy of the contract

    The repository holds a second, simpler copy of [RevenueLoan], the one its
    test suite addresses: no pause switch, failures reported by [require]
    with a reason string, no bound on the collateral, no self-funding check,
    and transfers made before the bookkeeping.  It is embedded here for
    comparison only; the statements of this development are about the contract
    above. *)

Module Legacy.

(** [require(c, reason);] *)
Definition require (c : bool) (reason : string) : M unit :=
  revert_if (negb c) (ErrorString reason).

Section Contract.
Variable call_value : address → N → M bool.
Variable now : N.

Definition onlyBorrower (sender : address) (_loanId : N) : M unit :=
  loan ← load _loanId;
  require (borrower loan =? sender) "Not the borrower".

Definition onlyLender (sender : address) (_loanId : N) : M unit :=
  loan ← load _loanId;
  require (lender loan =? sender) "Not the lender".

Definition loanExists (_loanId : N) : M unit :=
  s ← get;
  require ((0 <? _loanId) && (_loanId <? nextLoanId s)) "Loan does not exist".

Definition loanActive (_loanId : N) : M unit :=
  loan ← load _loanId;
  require (active loan) "Loan is not active".

Definition loanFunded (_loanId : N) : M unit :=
  loan ← load _loanId;
  require (funded loan) "Loan not funded".

Definition createLoan (sender : address) (value : N)
    (_amount _revenueSharePercent _repaymentCapPercent _duration : N)
    : M unit :=
  require (0 <? _amount) "Principal must be > 0";;
  require (0 <? _revenueSharePercent) "Revenue share % must be > 0";;
  require (100 <=? _repaymentCapPercent) "Repayment cap must be >=100%";;
  require (0 <? _duration) "Duration must be > 0";;
  s ← get;
  next ← checked_add (nextLoanId s) 1;
  modify (with_nextLoanId next);;
  let loanId := nextLoanId s in
  store loanId SRecord (λ _,
    mkLoan sender 0 _amount _revenueSharePercent _repaymentCapPercent
      0 false false value 0 _duration);;
  emit (LoanCreated loanId sender _amount _revenueSharePercent
          _repaymentCapPercent _duration value).

Definition fundLoan (sender : address) (value : N) (_loanId : N) : M unit :=
  nonReentrant (
    loanExists _loanId;;
    loan ← load _loanId;
    require (negb (funded loan)) "Loan already funded";;
    require (value =? principal loan) "Incorrect principal amount";;
    success ← call_value (borrower loan) value;
    require success "Transfer to borrower failed";;
    store _loanId SLender (set_lender sender);;
    store _loanId SFunded (set_funded true);;
    store _loanId SActive (set_active true);;
    store _loanId SStartTime (set_startTime now);;
    emit (LoanFunded _loanId sender)).

Definition repay (sender : address) (value : N) (_loanId : N) : M unit :=
  nonReentrant (
    loanExists _loanId;;
    onlyBorrower sender _loanId;;
    loanFunded _loanId;;
    loanActive _loanId;;
    require (0 <? value) "Repayment amount must be >0";;
    loan ← load _loanId;
    product ← checked_mul (principal loan) (repaymentCapPercent loan);
    let requiredRepayment := product / 100 in
    success ← call_value (lender loan) value;
    require success "Transfer to lender failed";;
    loan ← load _loanId;
    newTotalRepaid ← checked_add (totalRepaid loan) value;
    store _loanId STotalRepaid (set_totalRepaid newTotalRepaid);;
    emit (LoanRepaid _loanId value);;
    loan ← load _loanId;
    if requiredRepayment <=? totalRepaid loan then
      store _loanId SActive (set_active false);;
      loan ← load _loanId;
      (if 0 <? collateralAmount loan then
         let collateral := collateralAmount loan in
         store _loanId SCollateralAmount (set_collateralAmount 0);;
         loan ← load _loanId;
         collateralSuccess ← call_value (borrower loan) collateral;
         require collateralSuccess "Collateral return failed"
       else mret tt);;
      emit (LoanClosed _loanId)
    else mret tt).

Definition claimCollateral (sender : address) (_loanId : N) : M unit :=
  nonReentrant (
    loanExists _loanId;;
    onlyLender sender _loanId;;
    loanFunded _loanId;;
    loanActive _loanId;;
    loan ← load _loanId;
    maturity ← checked_add (startTime loan) (duration loan);
    require (maturity <? now) "Loan not yet matured";;
    product ← checked_mul (principal loan) (repaymentCapPercent loan);
    let requiredRepayment := product / 100 in
    require (totalRepaid loan <? requiredRepayment) "Loan is fully repaid";;
    let collateral := collateralAmount loan in
    require (0 <? collateral) "No collateral to claim";;
    store _loanId SActive (set_active false);;
    store _loanId SCollateralAmount (set_collateralAmount 0);;
    loan ← load _loanId;
    success ← call_value (lender loan) collateral;
    require success "Collateral transfer failed";;
    emit (CollateralClaimed _loanId sender);;
    emit (LoanClosed _loanId)).

Definition getLoan (_loanId : N) : M Loan :=
  s ← get;
  require ((0 <? _loanId) && (_loanId <? nextLoanId s)) "Loan does not exist";;
  load _loanId.
End Contract.

(** The scenario of the test suite on this copy: created at 1000, funded at
    2000, with recipients that accept and never call back. *)
Definition pay : address → N → M bool := call_inner passive.

Definition enter (value : N) (body : M unit) (s : State) : State :=
  match payable value body s with
  | Ok _ s' _ => s'
  | Revert _ => s
  end.

Definition created : State :=
  enter 2 (createLoan 11 2 10 10 120 WEEK) (initial 99).

Definition funded1 : State := enter 10 (fundLoan pay 2000 22 10 1) created.

End Legacy.

(** * Notions used in the statements *)

Definition requiredRepayment (l : Loan) : N :=
  principal l * repaymentCapPercent l / 100.

(** The collateral the ledger accounts for: the sum of [collateralAmount]
    over all loan records. *)
Definition locked (m : gmap N Loan) : N :=
  map_fold (λ _ l acc, collateralAmount l + acc) 0 m.

Definition guards_pass (s : State) (id : N) : Prop :=
  entered s = false ∧ paused s = false ∧ id ≠ 0 ∧ id < nextLoanId s.

(** [frame s s']: the state [s'] differs from [s] at most by loans created
    since, the pause switch and value received for new collateral. *)
Record frame (s s' : State) : Prop := mkFrame {
  frame_entered : entered s' = entered s;
  frame_owner : owner s' = owner s;
  frame_next : nextLoanId s ≤ nextLoanId s';
  frame_loans : ∀ id, id < nextLoanId s → loanAt s' id = loanAt s id;
  frame_fresh : ∀ id, nextLoanId s ≤ id → id < nextLoanId s' →
    funded (loanAt s' id) = false ∧ active (loanAt s' id) = false;
  frame_beyond : ∀ id, nextLoanId s' ≤ id → loanAt s' id = loanAt s id;
  frame_surplus :
    balance s + locked (loans s') ≤ balance s' + locked (loans s)
}.

(** [effect id inn out s s']: between [s] and [s'], the loans other than [id]
    that existed are untouched, loans may have been created, and the value
    the ledger holds beyond the recorded collateral grew by at least
    [inn - out]. *)
Record effect (id inn out : N) (s s' : State) : Prop := mkEffect {
  eff_owner : owner s' = owner s;
  eff_next : nextLoanId s ≤ nextLoanId s';
  eff_others : ∀ j, j < nextLoanId s → j ≠ id → loanAt s' j = loanAt s j;
  eff_fresh : ∀ j, nextLoanId s ≤ j → j < nextLoanId s' →
    funded (loanAt s' j) = false ∧ active (loanAt s' j) = false;
  eff_beyond : ∀ j, nextLoanId s' ≤ j → loanAt s' j = loanAt s j;
  eff_flow :
    balance s + locked (loans s') + inn ≤ balance s' + locked (loans s) + out
}.

(** [loan_step now tx id l l']: how the record of loan [id] can change in the
    transaction [tx] executed at time [now]. *)
Inductive loan_step (now : N) (tx : Tx) (id : N) (l : Loan) : Loan → Prop :=
| ls_stay : loan_step now tx id l l
| ls_fund :
    tx_call tx = FundLoan id →
    funded l = false → active l = false →
    tx_sender tx ≠ borrower l → tx_value tx = principal l →
    loan_step now tx id l
      (set_startTime now
         (set_active true (set_funded true (set_lender (tx_sender tx) l))))
| ls_repay :
    tx_call tx = Repay id →
    funded l = true → active l = true →
    tx_sender tx = borrower l → tx_value tx ≠ 0 →
    totalRepaid l + tx_value tx < requiredRepayment l →
    loan_step now tx id l (set_totalRepaid (totalRepaid l + tx_value tx) l)
| ls_close :
    tx_call tx = Repay id →
    funded l = true → active l = true →
    tx_sender tx = borrower l → tx_value tx ≠ 0 →
    requiredRepayment l ≤ totalRepaid l + tx_value tx →
    loan_step now tx id l
      (set_collateralAmount 0
         (set_active false
            (set_totalRepaid (totalRepaid l + tx_value tx) l)))
| ls_default :
    tx_call tx = ClaimCollateral id →
    funded l = true → active l = true →
    tx_sender tx = lender l →
    startTime l + duration l < now →
    totalRepaid l < requiredRepayment l → 0 < collateralAmount l →
    loan_step now tx id l (set_collateralAmount 0 (set_active false l)).

(** [advance now tx s s']: what one transaction may do to the ledger. *)
Record advance (now : N) (tx : Tx) (s s' : State) : Prop := mkAdvance {
  adv_entered : entered s' = false;
  adv_owner : owner s' = owner s;
  adv_next : nextLoanId s ≤ nextLoanId s';
  adv_loans : ∀ id, id < nextLoanId s →
    loan_step now tx id (loanAt s id) (loanAt s' id);
  adv_fresh : ∀ id, nextLoanId s ≤ id → id < nextLoanId s' →
    funded (loanAt s' id) = false ∧ active (loanAt s' id) = false;
  adv_beyond : ∀ id, nextLoanId s' ≤ id → loanAt s' id = loanAt s id;
  adv_surplus : balance s + locked (loans s') ≤ balance s' + locked (loans s)
}.

Record wf (s : State) : Prop := mkWf {
  wf_entered : entered s = false;
  wf_unused : ∀ id, nextLoanId s ≤ id →
    funded (loanAt s id) = false ∧ active (loanAt s id) = false;
  wf_active_funded : ∀ id,
    active (loanAt s id) = true → funded (loanAt s id) = true;
  wf_solvent : locked (loans s) ≤ balance s
}.

(** A transfer mechanism that never moves the switch of a ledger owned by
    [a]. *)
Definition keeps_switch (a : address) (cv : address → N → M bool) : Prop :=
  ∀ to v s b s' log,
    owner s = a → cv to v s = Ok b s' log →
    paused s' = paused s ∧ owner s' = a.

(** A recipient none of whose callbacks is sent by [a]. *)
Definition silent (a : address) (recipient : Recipient) : Prop :=
  ∀ to v s, Forall (λ tx, tx_sender tx ≠ a) (callbacks (recipient to v s)).

(** A recipient that accepts every transfer, whatever it does meanwhile. *)
Definition accepting (recipient : Recipient) : Prop :=
  ∀ to v s, accepted (recipient to v s) = true.

Definition is_store (a : Action) : bool :=
  match a with Store _ _ => true | _ => false end.

Definition is_transfer (a : Action) : bool :=
  match a with Transfer _ _ _ => true | _ => false end.

(** No storage write of a loan field comes after a value transfer. *)
Fixpoint effects_before_interactions (log : list Action) : bool :=
  match log with
  | [] => true
  | a :: rest =>
      (if is_transfer a then forallb (λ b, negb (is_store b)) rest else true)
      && effects_before_interactions rest
  end.

Definition valid_request (amount share cap dur value : N) : Prop :=
  0 < amount ∧ 0 < share ∧ 100 ≤ cap ∧ 0 < dur ∧ value ≤ amount.

Definition validation_error (e : Error) : Prop :=
  e ∈ [InvalidPrincipal; InvalidRevenueShare; InvalidRepaymentCap;
       InvalidDuration; CollateralTooHigh].

(** ** Scenario states *)

(** A loan whose duration fills the whole 256-bit range: created by the
    borrower 11 and funded by the lender 22 at time 2000. *)
Definition endless : State :=
  step passive 2000 (mkTx 22 10 (FundLoan 1))
    (step passive 1000 (mkTx 11 2 (CreateLoan 10 10 120 MAX_UINT256))
       (initial 99)).

(** The scenario ledger after the administrator has paused it. *)
Definition paused1 : State := step passive 2500 (mkTx 99 0 Pause) funded1.

(** * Notions for the invariants of loan records *)

(** The terms [createLoan] insists on. *)
Definition well_termed (l : Loan) : Prop :=
  0 < principal l ∧ 0 < revenueSharePercent l ∧
  100 ≤ repaymentCapPercent l ∧ 0 < duration l.

(** A record as [createLoan] writes it. *)
Definition newborn (l : Loan) : Prop :=
  well_termed l ∧ collateralAmount l ≤ principal l ∧
  lender l = 0 ∧ totalRepaid l = 0 ∧ funded l = false ∧ active l = false ∧
  startTime l = 0.

(** What holds of the record of every loan that exists. *)
Record consistent (l : Loan) : Prop := mkConsistent {
  cons_terms : well_termed l;
  cons_collateral : collateralAmount l ≤ principal l;
  cons_unfunded : funded l = false →
    lender l = 0 ∧ totalRepaid l = 0 ∧ startTime l = 0 ∧ active l = false;
  cons_active : active l = true →
    funded l = true ∧ totalRepaid l < requiredRepayment l;
  cons_lender : funded l = true → lender l ≠ borrower l;
  cons_closed : funded l = true → active l = false → collateralAmount l = 0
}.

(** The ledger invariant: the guard is free, the ledger is solvent, ids start
    at 1, every id below [nextLoanId] holds a consistent record and every
    other key of the mapping was never written. *)
Record sound (s : State) : Prop := mkSound {
  sound_wf : wf s;
  sound_first : 1 ≤ nextLoanId s;
  sound_loans : ∀ id, 1 ≤ id → id < nextLoanId s → consistent (loanAt s id);
  sound_blank : ∀ id, nextLoanId s ≤ id → loanAt s id = zeroLoan
}.

(** [grows s s']: loans have at most been added, as [createLoan] writes them,
    and the guard is where it was. *)
Record grows (s s' : State) : Prop := mkGrows {
  grows_entered : entered s' = entered s;
  grows_next : nextLoanId s ≤ nextLoanId s';
  grows_loans : ∀ j, j < nextLoanId s → loanAt s' j = loanAt s j;
  grows_born : ∀ j, nextLoanId s ≤ j → j < nextLoanId s' →
    newborn (loanAt s' j)
}.

(** A transfer mechanism under which loans only grow while the guard is
    held. *)
Definition breeds (cv : address → N → M bool) : Prop :=
  ∀ to v s b s' log,
    entered s = true → cv to v s = Ok b s' log → grows s s'.

(** Every loan added between [s] and [s'] is as [createLoan] writes it. *)
Definition born_since (s s' : State) : Prop :=
  ∀ j, nextLoanId s ≤ j → j < nextLoanId s' → newborn (loanAt s' j).


(** [evolves l l']: what can have become of a loan record over time. *)
Record evolves (l l' : Loan) : Prop := mkEvolves {
  ev_borrower : borrower l' = borrower l;
  ev_principal : principal l' = principal l;
  ev_share : revenueSharePercent l' = revenueSharePercent l;
  ev_cap : repaymentCapPercent l' = repaymentCapPercent l;
  ev_duration : duration l' = duration l;
  ev_repaid : totalRepaid l ≤ totalRepaid l';
  ev_collateral :
    collateralAmount l' = collateralAmount l ∨ collateralAmount l' = 0;
  ev_funded : funded l = true →
    funded l' = true ∧ lender l' = lender l ∧ startTime l' = startTime l
}.

(** * Reasoning about executions *)

(** ** Inversion of successful computations *)

Lemma bind_Ok {A B} (m : M A) (f : A → M B) s b s' log :
  (m ≫= f) s = Ok b s' log →
  ∃ a s1 l1 l2, m s = Ok a s1 l1 ∧ f a s1 = Ok b s' l2 ∧ log = l1 ++ l2.
Proof.
  unfold mbind, M_bind. destruct (m s) as [a s1 l1|e]; [|discriminate].
  destruct (f a s1) as [b' s2 l2|e] eqn:Hf; [|discriminate].
  intros [= -> -> <-]. eauto 10.
Qed.

Lemma bind_Revert {A B} (m : M A) (f : A → M B) s e :
  m s = Revert e → (m ≫= f) s = Revert e.
Proof. unfold mbind, M_bind. by intros ->. Qed.

Lemma bind_step {A B} (m : M A) (f : A → M B) s a s1 l1 :
  m s = Ok a s1 l1 →
  (m ≫= f) s =
    match f a s1 with
    | Ok b s2 l2 => Ok b s2 (l1 ++ l2)
    | Revert e => Revert e
    end.
Proof. unfold mbind, M_bind. by intros ->. Qed.

Lemma mret_Ok {A} (a b : A) s s' log :
  (mret a : M A) s = Ok b s' log → b = a ∧ s' = s ∧ log = [].
Proof. unfold mret, M_ret. by intros [= -> -> <-]. Qed.

Lemma revert_if_Ok c e s u s' log :
  revert_if c e s = Ok u s' log → c = false ∧ s' = s ∧ log = [].
Proof. destruct c; [discriminate|]. by intros [= <- <-]. Qed.

Lemma get_Ok s a s' log : get s = Ok a s' log → a = s ∧ s' = s ∧ log = [].
Proof. by intros [= -> <- <-]. Qed.

Lemma modify_Ok f s u s' log :
  modify f s = Ok u s' log → s' = f s ∧ log = [].
Proof. by intros [= <- <-]. Qed.

Lemma tell_Ok a s u s' log : tell a s = Ok u s' log → s' = s ∧ log = [a].
Proof. by intros [= <- <-]. Qed.

Lemma load_Ok id s l s' log :
  load id s = Ok l s' log → l = loanAt s id ∧ s' = s ∧ log = [].
Proof. by intros [= <- <- <-]. Qed.

Lemma store_Ok id slot upd s u s' log :
  store id slot upd s = Ok u s' log →
  s' = with_loans (<[id := upd (loanAt s id)]> (loans s)) s ∧
  log = [Store id slot].
Proof. by intros [= <- <-]. Qed.

Lemma checked_add_Ok a b s r s' log :
  checked_add a b s = Ok r s' log →
  a + b ≤ MAX_UINT256 ∧ r = a + b ∧ s' = s ∧ log = [].
Proof.
  unfold checked_add. destruct (a + b <=? MAX_UINT256) eqn:E; [|discriminate].
  intros [= <- <- <-]. by apply N.leb_le in E.
Qed.

Lemma checked_mul_Ok a b s r s' log :
  checked_mul a b s = Ok r s' log →
  a * b ≤ MAX_UINT256 ∧ r = a * b ∧ s' = s ∧ log = [].
Proof.
  unfold checked_mul. destruct (a * b <=? MAX_UINT256) eqn:E; [|discriminate].
  intros [= <- <- <-]. by apply N.leb_le in E.
Qed.

(** One step of inversion on a hypothesis stating that a computation
    succeeded. *)
Ltac minv1 :=
  match goal with
  | H : (_ ≫= _) _ = Ok _ _ _ |- _ =>
      apply bind_Ok in H; destruct H as (? & ? & ? & ? & ? & ? & ?)
  | H : @mret M _ _ _ _ = Ok _ _ _ |- _ =>
      apply mret_Ok in H; destruct H as (? & ? & ?)
  | H : revert_if _ _ _ = Ok _ _ _ |- _ =>
      apply revert_if_Ok in H; destruct H as (? & ? & ?)
  | H : get _ = Ok _ _ _ |- _ =>
      apply get_Ok in H; destruct H as (? & ? & ?)
  | H : modify _ _ = Ok _ _ _ |- _ =>
      apply modify_Ok in H; destruct H as (? & ?)
  | H : emit _ _ = Ok _ _ _ |- _ =>
      apply tell_Ok in H; destruct H as (? & ?)
  | H : load _ _ = Ok _ _ _ |- _ =>
      apply load_Ok in H; destruct H as (? & ? & ?)
  | H : store _ _ _ _ = Ok _ _ _ |- _ =>
      apply store_Ok in H; destruct H as (? & ?)
  | H : checked_add _ _ _ = Ok _ _ _ |- _ =>
      apply checked_add_Ok in H; destruct H as (? & ? & ? & ?)
  | H : checked_mul _ _ _ = Ok _ _ _ |- _ =>
      apply checked_mul_Ok in H; destruct H as (? & ? & ? & ?)
  | H : whenNotPaused _ = Ok _ _ _ |- _ => unfold whenNotPaused in H
  | H : loanExists _ _ = Ok _ _ _ |- _ => unfold loanExists in H
  | H : onlyBorrower _ _ _ = Ok _ _ _ |- _ => unfold onlyBorrower in H
  | H : onlyLender _ _ _ = Ok _ _ _ |- _ => unfold onlyLender in H
  | H : loanFunded _ _ = Ok _ _ _ |- _ => unfold loanFunded in H
  | H : loanActive _ _ = Ok _ _ _ |- _ => unfold loanActive in H
  | H : onlyOwner _ _ = Ok _ _ _ |- _ => unfold onlyOwner in H
  | H : nonReentrant _ _ = Ok _ _ _ |- _ => unfold nonReentrant in H
  | H : take_loanId _ = Ok _ _ _ |- _ => unfold take_loanId in H
  | H : payable _ _ _ = Ok _ _ _ |- _ => unfold payable in H
  | H : nonpayable _ _ _ = Ok _ _ _ |- _ => unfold nonpayable in H
  end.

Ltac minv := repeat (minv1; simplify_eq/=).

(** ** Storage lemmas *)

Lemma loanAt_insert s id x j :
  loanAt (with_loans (<[id := x]> (loans s)) s) j =
    if decide (id = j) then x else loanAt s j.
Proof. unfold loanAt; simpl. apply lookup_total_insert. Qed.

Lemma loanAt_with_entered b s id : loanAt (with_entered b s) id = loanAt s id.
Proof. done. Qed.

Lemma loanAt_with_balance v s id : loanAt (with_balance v s) id = loanAt s id.
Proof. done. Qed.

Lemma loanAt_with_paused b s id : loanAt (with_paused b s) id = loanAt s id.
Proof. done. Qed.

Lemma loanAt_with_nextLoanId n s id :
  loanAt (with_nextLoanId n s) id = loanAt s id.
Proof. done. Qed.

Lemma loanAt_with_loans m s id : loanAt (with_loans m s) id = m !!! id.
Proof. done. Qed.

Lemma locked_empty : locked ∅ = 0.
Proof. apply map_fold_empty. Qed.

Lemma locked_insert_fresh (m : gmap N Loan) id l :
  m !! id = None → locked (<[id := l]> m) = collateralAmount l + locked m.
Proof.
  intros Hid. unfold locked. rewrite map_fold_insert_L; [done| |done].
  intros. lia.
Qed.

Lemma locked_insert (m : gmap N Loan) id l :
  locked (<[id := l]> m) + collateralAmount (m !!! id) =
  locked m + collateralAmount l.
Proof.
  rewrite lookup_total_alt. destruct (m !! id) as [l0|] eqn:Hid; simpl.
  - rewrite <- (insert_delete_eq m id l).
    rewrite <- (insert_id m id l0 Hid) at 2.
    rewrite <- (insert_delete_eq m id l0).
    rewrite !locked_insert_fresh by apply lookup_delete_eq. lia.
  - rewrite locked_insert_fresh by done. lia.
Qed.

Lemma locked_lookup (m : gmap N Loan) id :
  collateralAmount (m !!! id) ≤ locked m.
Proof.
  pose proof (locked_insert m id (m !!! id)) as H.
  rewrite lookup_total_alt in *.
  destruct (m !! id) as [l0|] eqn:Hid; simpl in *; [|lia].
  rewrite <- (insert_id m id l0 Hid).
  rewrite <- (insert_delete_eq m id l0).
  rewrite locked_insert_fresh by apply lookup_delete_eq. lia.
Qed.

(** ** What callbacks can change *)

Lemma frame_refl s : frame s s.
Proof. split; auto; lia. Qed.

Lemma frame_trans s1 s2 s3 : frame s1 s2 → frame s2 s3 → frame s1 s3.
Proof.
  intros [] []. split; try congruence; try lia.
  - intros id Hid. rewrite frame_loans1 by lia. auto.
  - intros id H1 H3. destruct (decide (id < nextLoanId s2)).
    + rewrite frame_loans1 by done. auto.
    + apply frame_fresh1; lia.
  - intros id H3. rewrite frame_beyond1 by done. apply frame_beyond0. lia.
Qed.

Lemma nonReentrant_entered body s :
  entered s = true → nonReentrant body s = Revert ReentrancyGuardReentrantCall.
Proof.
  intros H. unfold nonReentrant. rewrite (bind_step _ _ s s s []) by done.
  rewrite H. done.
Qed.

(** While the guard is held, the outcome of a call into the ledger does not
    depend on how transfers resolve: no transfer is reached. *)
Lemma dispatch_entered cv1 cv2 now tx s :
  entered s = true → dispatch cv1 now tx s = dispatch cv2 now tx s.
Proof.
  intros H. destruct tx as [sender value []]; unfold dispatch; simpl;
    try reflexivity.
  - unfold payable, fundLoan.
    rewrite !(bind_step _ _ s tt (with_balance (balance s + value) s) [])
      by done.
    by rewrite !nonReentrant_entered.
  - unfold payable, repay.
    rewrite !(bind_step _ _ s tt (with_balance (balance s + value) s) [])
      by done.
    by rewrite !nonReentrant_entered.
  - unfold nonpayable, claimCollateral.
    destruct (negb (value =? 0)) eqn:E.
    + rewrite !(bind_Revert _ _ s NonPayable); done.
    + rewrite !(bind_step _ _ s tt s []) by done.
      by rewrite !nonReentrant_entered.
Qed.

Lemma createLoan_Ok sender value a r c d s u s' log :
  createLoan sender value a r c d s = Ok u s' log →
  paused s = false ∧ a ≠ 0 ∧ r ≠ 0 ∧ 100 ≤ c ∧ d ≠ 0 ∧ value ≤ a ∧
  nextLoanId s + 1 ≤ MAX_UINT256 ∧
  s' = with_loans
         (<[nextLoanId s :=
              mkLoan sender 0 a r c 0 false false value 0 d]> (loans s))
         (with_nextLoanId (nextLoanId s + 1) s) ∧
  log = [Store (nextLoanId s) SRecord;
         Emit (LoanCreated (nextLoanId s) sender a r c d value)].
Proof.
  intros H. unfold createLoan in H. minv.
  repeat match goal with
  | H : (_ =? _) = false |- _ => apply N.eqb_neq in H
  | H : (_ <? _) = false |- _ => apply N.ltb_ge in H
  end.
  repeat split; auto.
Qed.

Lemma pause_Ok sender s u s' log :
  pause sender s = Ok u s' log →
  owner s = sender ∧ paused s = false ∧ s' = with_paused true s ∧
  log = [Emit (Paused sender)].
Proof.
  intros H. unfold pause, _pause in H. minv.
  match goal with H : negb _ = false |- _ =>
    apply negb_false_iff, N.eqb_eq in H end.
  done.
Qed.

Lemma unpause_Ok sender s u s' log :
  unpause sender s = Ok u s' log →
  owner s = sender ∧ paused s = true ∧ s' = with_paused false s ∧
  log = [Emit (Unpaused sender)].
Proof.
  intros H. unfold unpause, _unpause in H. minv.
  repeat match goal with H : negb _ = false |- _ =>
    apply negb_false_iff in H end.
  match goal with H : (_ =? _) = true |- _ => apply N.eqb_eq in H end.
  done.
Qed.

Lemma getLoan_Ok id s l s' log :
  getLoan id s = Ok l s' log →
  id ≠ 0 ∧ id < nextLoanId s ∧ l = loanAt s id ∧ s' = s ∧ log = [].
Proof.
  intros H. unfold getLoan in H. minv.
  match goal with H : _ || _ = false |- _ =>
    apply orb_false_iff in H; destruct H as [H1 H2];
    apply N.eqb_neq in H1; apply N.leb_gt in H2 end.
  done.
Qed.

Lemma createLoan_frame sender value a r c d s u s' log :
  createLoan sender value a r c d (with_balance (balance s + value) s)
    = Ok u s' log →
  frame s s'.
Proof.
  intros H. apply createLoan_Ok in H.
  destruct H as (_ & _ & _ & _ & _ & Hv & _ & -> & _). simpl.
  split; simpl; auto; try lia.
  - intros id Hid. rewrite loanAt_with_loans; simpl.
    rewrite lookup_total_insert_ne by lia. done.
  - intros id H1 H2. assert (id = nextLoanId s) as -> by lia.
    rewrite loanAt_with_loans; simpl. by rewrite lookup_total_insert_eq.
  - intros id Hid. rewrite loanAt_with_loans; simpl.
    rewrite lookup_total_insert_ne by lia. done.
  - pose proof (locked_insert (loans s) (nextLoanId s)
      (mkLoan sender 0 a r c 0 false false value 0 d)) as HL.
    simpl in HL. lia.
Qed.

(** A callback that goes through leaves a frame. *)
Lemma callback_frame cv now tx s u s' log :
  entered s = true → dispatch cv now tx s = Ok u s' log → frame s s'.
Proof.
  intros He H. destruct tx as [sender value []]; unfold dispatch in H;
    simpl in H.
  - unfold payable in H. apply bind_Ok in H.
    destruct H as (? & ? & ? & ? & H1 & H2 & _).
    apply modify_Ok in H1. destruct H1 as [-> _].
    by eapply createLoan_frame.
  - unfold payable, fundLoan in H. apply bind_Ok in H.
    destruct H as (? & ? & ? & ? & H1 & H2 & _).
    apply modify_Ok in H1. destruct H1 as [-> _].
    rewrite nonReentrant_entered in H2; done.
  - unfold payable, repay in H. apply bind_Ok in H.
    destruct H as (? & ? & ? & ? & H1 & H2 & _).
    apply modify_Ok in H1. destruct H1 as [-> _].
    rewrite nonReentrant_entered in H2; done.
  - unfold nonpayable, claimCollateral in H. apply bind_Ok in H.
    destruct H as (? & ? & ? & ? & H1 & H2 & _).
    apply revert_if_Ok in H1. destruct H1 as (_ & -> & _).
    rewrite nonReentrant_entered in H2; done.
  - unfold nonpayable in H. apply bind_Ok in H.
    destruct H as (? & ? & ? & ? & H1 & H2 & _).
    apply revert_if_Ok in H1. destruct H1 as (_ & -> & _).
    apply pause_Ok in H2. destruct H2 as (_ & _ & -> & _).
    split; simpl; auto; lia.
  - unfold nonpayable in H. apply bind_Ok in H.
    destruct H as (? & ? & ? & ? & H1 & H2 & _).
    apply revert_if_Ok in H1. destruct H1 as (_ & -> & _).
    apply unpause_Ok in H2. destruct H2 as (_ & _ & -> & _).
    split; simpl; auto; lia.
  - unfold nonpayable in H. minv.
    match goal with H : getLoan _ _ = Ok _ _ _ |- _ =>
      apply getLoan_Ok in H; destruct H as (_ & _ & _ & -> & _) end.
    apply frame_refl.
Qed.

Lemma reenter_frame cv now txs s s' evs :
  entered s = true →
  reenter (dispatch cv now) txs s = (s', evs) → frame s s'.
Proof.
  revert s s' evs. induction txs as [|tx txs IH]; intros s s' evs He H;
    simpl in H.
  - injection H as <- _. apply frame_refl.
  - destruct (dispatch cv now tx s) as [u s1 log|e] eqn:Hd.
    + destruct (reenter (dispatch cv now) txs s1) as [s2 evs2] eqn:Hr.
      injection H as <- _.
      pose proof (callback_frame _ _ _ _ _ _ _ He Hd) as F1.
      eapply frame_trans; [exact F1|].
      eapply IH; [|exact Hr]. rewrite (frame_entered _ _ F1). done.
    + by eapply IH.
Qed.

(** A transfer made while the guard is held either fails without effect or
    debits the amount and leaves a frame. *)
Lemma call_outer_Ok recipient now to amount s ok s' log :
  entered s = true →
  call_outer recipient now to amount s = Ok ok s' log →
  (ok = false ∧ s' = s ∧ log = []) ∨
  (ok = true ∧ amount ≤ balance s ∧
   frame (with_balance (balance s - amount) s) s' ∧
   ∃ evs, log = [Transfer to amount evs]).
Proof.
  intros He H. unfold call_outer, transfer in H.
  destruct (balance s <? amount) eqn:Hb.
  { left. by injection H as <- <- <-. }
  apply N.ltb_ge in Hb.
  destruct (accepted _).
  - destruct (reenter _ _ _) as [s2 evs] eqn:Hr.
    injection H as <- <- <-. right.
    split; [done|]. split; [done|]. split; [|eauto].
    eapply reenter_frame; [|exact Hr]. done.
  - left. by injection H as <- <- <-.
Qed.

(** ** What a call does to the ledger, apart from one loan *)

Lemma effect_trans id i1 o1 i2 o2 s1 s2 s3 :
  id < nextLoanId s1 →
  effect id i1 o1 s1 s2 → effect id i2 o2 s2 s3 →
  effect id (i1 + i2) (o1 + o2) s1 s3.
Proof.
  intros Hid [] []. split; try congruence; try lia.
  - intros j Hj Hne. rewrite eff_others1 by (done || lia). auto.
  - intros j H1 H3. destruct (decide (j < nextLoanId s2)).
    + rewrite eff_others1 by (done || lia). auto.
    + apply eff_fresh1; lia.
  - intros j H3. rewrite eff_beyond1 by done. apply eff_beyond0. lia.
Qed.

Lemma effect_weaken id i o i' o' s s' :
  i' + o ≤ i + o' → effect id i o s s' → effect id i' o' s s'.
Proof. intros Hio []. split; auto. lia. Qed.

Lemma effect_frame id s s' : frame s s' → effect id 0 0 s s'.
Proof. intros []. split; auto. lia. Qed.

Lemma effect_store id upd s :
  id < nextLoanId s →
  effect id (collateralAmount (loanAt s id))
    (collateralAmount (upd (loanAt s id)))
    s (with_loans (<[id := upd (loanAt s id)]> (loans s)) s).
Proof.
  intros Hid. split; simpl; auto; try lia.
  - intros j _ Hne. rewrite loanAt_insert. by case_decide.
  - intros j Hj. rewrite loanAt_insert. case_decide; [lia|done].
  - pose proof (locked_insert (loans s) id (upd (loanAt s id))) as HL.
    unfold loanAt in *. lia.
Qed.

Lemma effect_entered id b s : effect id 0 0 s (with_entered b s).
Proof. split; simpl; auto; lia. Qed.

Lemma effect_credit id v s :
  effect id v 0 s (with_balance (balance s + v) s).
Proof. split; simpl; auto; lia. Qed.

Lemma effect_debit id v s :
  v ≤ balance s → effect id 0 v s (with_balance (balance s - v) s).
Proof. intros Hv. split; simpl; auto; lia. Qed.

Lemma loanExists_false id n :
  (id =? 0) || (n <=? id) = false → id ≠ 0 ∧ id < n.
Proof.
  intros H. apply orb_false_iff in H. destruct H as [H1 H2].
  apply N.eqb_neq in H1. apply N.leb_gt in H2. done.
Qed.

Lemma with_loans_with_loans m m' s :
  with_loans m (with_loans m' s) = with_loans m s.
Proof. done. Qed.

Lemma loanAt_insert_eq m s id x :
  loanAt (with_loans (<[id := x]> m) s) id = x.
Proof. unfold loanAt; simpl. apply lookup_total_insert_eq. Qed.

Lemma insert_twice (m : gmap N Loan) id x y :
  <[id := y]> (<[id := x]> m) = <[id := y]> m.
Proof. apply insert_insert_eq. Qed.

Create Rewrite HintDb ledger.

#[local] Hint Rewrite with_loans_with_loans loanAt_insert_eq insert_twice
  loanAt_with_entered loanAt_with_balance : ledger.

Ltac mnorm := autorewrite with ledger in *.

(** Boolean tests of the code, turned into propositions. *)
Ltac bools :=
  repeat match goal with
  | H : negb _ = false |- _ => apply negb_false_iff in H
  | H : negb _ = true |- _ => apply negb_true_iff in H
  | H : (_ =? _) = true |- _ => apply N.eqb_eq in H
  | H : (_ =? _) = false |- _ => apply N.eqb_neq in H
  | H : (_ <? _) = true |- _ => apply N.ltb_lt in H
  | H : (_ <? _) = false |- _ => apply N.ltb_ge in H
  | H : (_ <=? _) = true |- _ => apply N.leb_le in H
  | H : (_ <=? _) = false |- _ => apply N.leb_gt in H
  | H : (_ =? 0) || (_ <=? _) = false |- _ =>
      apply loanExists_false in H; destruct H
  end.

(** Stores to the loan [id] followed by a transfer that goes through. *)
Lemma store_call_effect recipient now id upd to amount s s1 log :
  entered s = true → id < nextLoanId s →
  call_outer recipient now to amount
    (with_loans (<[id := upd (loanAt s id)]> (loans s)) s) = Ok true s1 log →
  entered s1 = true ∧ id < nextLoanId s1 ∧
  loanAt s1 id = upd (loanAt s id) ∧
  effect id (collateralAmount (loanAt s id))
    (collateralAmount (upd (loanAt s id)) + amount) s s1 ∧
  ∃ evs, log = [Transfer to amount evs].
Proof.
  intros He Hid H. apply call_outer_Ok in H; [|done].
  destruct H as [(? & _)|(_ & Hbal & Hfr & evs & ->)]; [done|].
  simpl in Hbal.
  pose proof (frame_entered _ _ Hfr) as E1.
  pose proof (frame_next _ _ Hfr) as E2.
  pose proof (frame_loans _ _ Hfr id) as E3. simpl in E1, E2, E3.
  split; [congruence|]. split; [lia|]. split.
  { rewrite E3 by done. rewrite loanAt_with_balance. apply loanAt_insert_eq. }
  split; [|eauto].
  eapply effect_weaken;
    [|eapply effect_trans;
       [|apply (effect_store id upd s Hid)
        |eapply effect_trans;
           [|apply effect_debit, Hbal|apply effect_frame, Hfr]]];
    simpl; try done; lia.
Qed.

Lemma fundLoan_Ok recipient now sender value id s u s' log :
  fundLoan (call_outer recipient now) now sender value id s = Ok u s' log →
  let l := loanAt s id in
  guards_pass s id ∧
  (funded l = false ∧ active l = false ∧ sender ≠ borrower l ∧
   value = principal l) ∧
  entered s' = false ∧
  loanAt s' id =
    set_startTime now (set_active true (set_funded true (set_lender sender l)))
  ∧ effect id 0 value s s' ∧
  ∃ evs, log = [Store id SLender; Store id SFunded; Store id SActive;
                Store id SStartTime; Emit (LoanFunded id sender);
                Transfer (borrower l) value evs].
Proof.
  intros H l. unfold fundLoan in H. minv. mnorm. bools. subst.
  match goal with H : call_outer _ _ _ _ _ = _ |- _ =>
    eapply (store_call_effect _ _ id
      (λ l, set_startTime now
              (set_active true (set_funded true (set_lender sender l))))
      _ _ (with_entered true s)) in H;
    [destruct H as (E1 & E2 & E3 & E4 & evs & ->)|done|done] end.
  rewrite ?loanAt_with_entered in *.
  split; [done|]. split; [done|]. split; [done|].
  split; [exact E3|].
  split; [|eauto].
  eapply effect_weaken;
    [|eapply effect_trans;
       [|apply (effect_entered id true)
        |eapply effect_trans; [|exact E4|apply (effect_entered id false)]]];
    simpl; try done; lia.
Qed.

Lemma claimCollateral_Ok recipient now sender id s u s' log :
  claimCollateral (call_outer recipient now) now sender id s = Ok u s' log →
  let l := loanAt s id in
  guards_pass s id ∧
  (lender l = sender ∧ funded l = true ∧ active l = true ∧
   startTime l + duration l ≤ MAX_UINT256 ∧
   startTime l + duration l < now ∧
   principal l * repaymentCapPercent l ≤ MAX_UINT256 ∧
   totalRepaid l < requiredRepayment l ∧ 0 < collateralAmount l) ∧
  entered s' = false ∧
  loanAt s' id = set_collateralAmount 0 (set_active false l) ∧
  effect id 0 0 s s' ∧
  ∃ evs, log = [Store id SActive; Store id SCollateralAmount;
                Emit (LoanDefaulted id); Emit (CollateralClaimed id sender);
                Emit (LoanClosed id);
                Transfer (lender l) (collateralAmount l) evs].
Proof.
  intros H l. unfold claimCollateral in H. minv. mnorm. bools. subst.
  match goal with H : call_outer _ _ _ _ _ = _ |- _ =>
    eapply (store_call_effect _ _ id
      (λ l, set_collateralAmount 0 (set_active false l))
      _ _ (with_entered true s)) in H;
    [destruct H as (E1 & E2 & E3 & E4 & evs & ->)|done|done] end.
  rewrite ?loanAt_with_entered in *.
  split; [done|]. subst l.
  split; [unfold requiredRepayment; split_and!; first [done|lia]|].
  split; [done|].
  split; [exact E3|].
  split; [|eauto].
  eapply effect_weaken;
    [|eapply effect_trans;
       [|apply (effect_entered id true)
        |eapply effect_trans; [|exact E4|apply (effect_entered id false)]]];
    simpl; try done; simpl; lia.
Qed.

Lemma repay_Ok recipient now sender value id s u s' log :
  repay (call_outer recipient now) sender value id s = Ok u s' log →
  let l := loanAt s id in
  let total := totalRepaid l + value in
  guards_pass s id ∧
  (borrower l = sender ∧ funded l = true ∧ active l = true ∧ value ≠ 0 ∧
   principal l * repaymentCapPercent l ≤ MAX_UINT256 ∧
   total ≤ MAX_UINT256) ∧
  entered s' = false ∧ effect id 0 value s s' ∧
  ∃ evs,
    (total < requiredRepayment l ∧
     loanAt s' id = set_totalRepaid total l ∧
     log = [Store id STotalRepaid; Emit (LoanRepaid id value);
            Transfer (lender l) value evs]) ∨
    (requiredRepayment l ≤ total ∧ collateralAmount l = 0 ∧
     loanAt s' id = set_active false (set_totalRepaid total l) ∧
     log = [Store id STotalRepaid; Emit (LoanRepaid id value);
            Transfer (lender l) value evs;
            Store id SActive; Emit (LoanClosed id)]) ∨
    (requiredRepayment l ≤ total ∧ 0 < collateralAmount l ∧
     loanAt s' id =
       set_collateralAmount 0 (set_active false (set_totalRepaid total l)) ∧
     ∃ evs2,
       log = [Store id STotalRepaid; Emit (LoanRepaid id value);
              Transfer (lender l) value evs;
              Store id SActive; Store id SCollateralAmount;
              Transfer (borrower l) (collateralAmount l) evs2;
              Emit (LoanClosed id)]).
Proof.
  intros H l total. unfold repay in H. minv. mnorm. bools. subst.
  match goal with H : call_outer _ _ _ _ _ = _ |- _ =>
    eapply (store_call_effect _ _ id
      (λ l, set_totalRepaid (totalRepaid l + value) l)
      _ _ (with_entered true s)) in H;
    [destruct H as (E1 & E2 & E3 & E4 & evs & ->)|done|done] end.
  rewrite ?loanAt_with_entered in *.
  subst l total. unfold requiredRepayment.
  split; [done|]. split; [done|]. split; [done|].
  match goal with H : (if ?c then _ else _) _ = Ok _ _ _ |- _ =>
    destruct c eqn:Hreq end; bools.
  - (* the cap is reached: the loan closes *)
    minv. mnorm. rewrite E3 in *. simpl in *.
    match goal with H : (if ?c then _ else _) _ = Ok _ _ _ |- _ =>
      destruct c eqn:Hcol end; bools.
    + minv. mnorm. bools. subst.
      match goal with H : call_outer _ _ _ _ _ = _ |- _ =>
        rewrite <- E3 in H;
        eapply (store_call_effect _ _ id
          (λ l, set_collateralAmount 0 (set_active false l))
          _ _ x49) in H;
        [destruct H as (F1 & F2 & F3 & F4 & evs2 & ->)|done|done] end.
      rewrite E3 in *. simpl in *. split.
      * eapply effect_weaken;
          [|eapply effect_trans;
             [|apply (effect_entered id true)
              |eapply effect_trans;
                 [|exact E4
                  |eapply effect_trans;
                     [|exact F4|apply (effect_entered id false)]]]];
          simpl; try done; simpl; lia.
      * exists evs. right. right. split_and!; try done. eauto.
    + minv.
      pose proof (effect_store id (set_active false) x49 E2) as S1.
      rewrite E3 in S1. simpl in S1. split.
      * eapply effect_weaken;
          [|eapply effect_trans;
             [|apply (effect_entered id true)
              |eapply effect_trans;
                 [|exact E4
                  |eapply effect_trans;
                     [|exact S1|apply (effect_entered id false)]]]];
          simpl; try done; simpl; lia.
      * exists evs. right. left. split_and!; try done; try lia.
        apply loanAt_insert_eq.
  - (* below the cap: the loan stays open *)
    minv. split.
    + eapply effect_weaken;
        [|eapply effect_trans;
           [|apply (effect_entered id true)
            |eapply effect_trans;
               [|exact E4|apply (effect_entered id false)]]];
        simpl; try done; simpl; lia.
    + exists evs. left. done.
Qed.

(** ** The life of one loan *)

Lemma advance_refl now tx s : entered s = false → advance now tx s s.
Proof. intros H. split; auto; try lia. intros; apply ls_stay. Qed.

Lemma frame_advance now tx s s' :
  entered s = false → frame s s' → advance now tx s s'.
Proof.
  intros H []. split; auto; try congruence.
  intros id Hid. rewrite frame_loans0 by done. apply ls_stay.
Qed.

Lemma effect_advance now tx id v s s1 s' :
  id < nextLoanId s →
  s1 = with_balance (balance s + v) s →
  effect id 0 v s1 s' → entered s' = false →
  loan_step now tx id (loanAt s id) (loanAt s' id) →
  advance now tx s s'.
Proof.
  intros Hid -> [] He Hl. simpl in *. split; auto; try lia.
  intros j Hj. destruct (decide (j = id)) as [->|Hne]; [done|].
  rewrite eff_others0 by done. apply ls_stay.
Qed.

Lemma with_balance_same s : with_balance (balance s + 0) s = s.
Proof. destruct s; unfold with_balance; simpl. by rewrite N.add_0_r. Qed.

Lemma set_collateralAmount_zero l :
  collateralAmount l = 0 → set_collateralAmount 0 l = l.
Proof. destruct l; simpl. by intros ->. Qed.

Lemma execute_advance recipient now tx s u s' log :
  entered s = false →
  execute recipient now tx s = Ok u s' log →
  advance now tx s s'.
Proof.
  intros He H. destruct tx as [sender value call].
  unfold execute, dispatch in H. simpl in H.
  destruct call as [a r c d|id|id|id| | |id].
  - unfold payable in H. apply bind_Ok in H.
    destruct H as (? & ? & ? & ? & H1 & H2 & _).
    apply modify_Ok in H1. destruct H1 as [-> _].
    apply frame_advance; [done|]. by eapply createLoan_frame.
  - unfold payable in H. apply bind_Ok in H.
    destruct H as (? & ? & ? & ? & H1 & H2 & _).
    apply modify_Ok in H1. destruct H1 as [-> _].
    apply fundLoan_Ok in H2. rewrite loanAt_with_balance in H2.
    destruct H2 as ((_ & _ & _ & Hid) & (? & ? & ? & ?) & ? & Hl & ? & _).
    simpl in Hid. eapply (effect_advance _ _ id value); eauto.
    rewrite Hl. by apply ls_fund.
  - unfold payable in H. apply bind_Ok in H.
    destruct H as (? & ? & ? & ? & H1 & H2 & _).
    apply modify_Ok in H1. destruct H1 as [-> _].
    apply repay_Ok in H2. rewrite loanAt_with_balance in H2.
    destruct H2 as ((_ & _ & _ & Hid) & (? & ? & ? & ? & ? & ?) & ? & ? &
      evs & [(? & Hl & _)|[(? & ? & Hl & _)|(? & ? & Hl & _)]]);
      simpl in Hid; eapply (effect_advance _ _ id value); eauto;
      rewrite Hl.
    + by apply ls_repay.
    + rewrite <- (set_collateralAmount_zero (set_active false _)) by done.
      by apply ls_close.
    + by apply ls_close.
  - unfold nonpayable in H. apply bind_Ok in H.
    destruct H as (? & ? & ? & ? & H1 & H2 & _).
    apply revert_if_Ok in H1. destruct H1 as (Hv & -> & _). bools.
    simpl in Hv. subst value.
    apply claimCollateral_Ok in H2.
    destruct H2 as ((_ & _ & _ & Hid) &
      (? & ? & ? & ? & ? & ? & ? & ?) & ? & Hl & ? & _).
    eapply (effect_advance _ _ id 0); eauto.
    + by rewrite with_balance_same.
    + rewrite Hl. by apply ls_default.
  - unfold nonpayable in H. apply bind_Ok in H.
    destruct H as (? & ? & ? & ? & H1 & H2 & _).
    apply revert_if_Ok in H1. destruct H1 as (_ & -> & _).
    apply pause_Ok in H2. destruct H2 as (_ & _ & -> & _).
    split; simpl; auto; try lia. intros; apply ls_stay.
  - unfold nonpayable in H. apply bind_Ok in H.
    destruct H as (? & ? & ? & ? & H1 & H2 & _).
    apply revert_if_Ok in H1. destruct H1 as (_ & -> & _).
    apply unpause_Ok in H2. destruct H2 as (_ & _ & -> & _).
    split; simpl; auto; try lia. intros; apply ls_stay.
  - unfold nonpayable in H. minv.
    match goal with H : getLoan _ _ = Ok _ _ _ |- _ =>
      apply getLoan_Ok in H; destruct H as (_ & _ & _ & -> & _) end.
    by apply advance_refl.
Qed.

Lemma step_advance recipient now tx s :
  entered s = false → advance now tx s (step recipient now tx s).
Proof.
  intros He. unfold step.
  destruct (execute recipient now tx s) as [u s' log|e] eqn:H.
  - by eapply execute_advance.
  - by apply advance_refl.
Qed.

(** ** Invariants of the ledger *)

Lemma wf_initial deployer : wf (initial deployer).
Proof.
  split; simpl.
  - done.
  - intros id _. unfold loanAt; simpl. by rewrite lookup_total_empty.
  - intros id. unfold loanAt; simpl. by rewrite lookup_total_empty.
  - rewrite locked_empty. lia.
Qed.

Lemma loan_step_active_funded now tx id l l' :
  loan_step now tx id l l' →
  (active l = true → funded l = true) →
  active l' = true → funded l' = true.
Proof. intros [] Hl; simpl; auto; discriminate. Qed.

Lemma wf_advance now tx s s' : wf s → advance now tx s s' → wf s'.
Proof.
  intros [] []. split; auto; try lia.
  - intros id Hid. rewrite adv_beyond0 by done. apply wf_unused0. lia.
  - intros id. destruct (decide (id < nextLoanId s)) as [Hlt|Hge].
    + eapply loan_step_active_funded; eauto.
    + destruct (decide (id < nextLoanId s')).
      * destruct (adv_fresh0 id) as [_ ->]; [lia|done|discriminate].
      * rewrite adv_beyond0 by lia. auto.
Qed.

Lemma wf_step recipient now tx s : wf s → wf (step recipient now tx s).
Proof.
  intros H. eapply wf_advance; [done|].
  apply step_advance, (wf_entered _ H).
Qed.

Lemma run_app h1 h2 s : run (h1 ++ h2) s = run h2 (run h1 s).
Proof. unfold run. apply foldl_app. Qed.

Lemma run_cons b h s :
  run (b :: h) s = run h (step (blk_recipient b) (blk_now b) (blk_tx b) s).
Proof. done. Qed.

Lemma wf_run h s : wf s → wf (run h s).
Proof.
  revert s. induction h as [|b h IH]; intros s H; [done|].
  rewrite run_cons. apply IH, wf_step, H.
Qed.

(** Properties that every transaction preserves are preserved by a run. *)
Lemma run_preserves (P : State → Prop) :
  (∀ recipient now tx s, wf s → P s → P (step recipient now tx s)) →
  ∀ h s, wf s → P s → P (run h s).
Proof.
  intros Hstep h. induction h as [|b h IH]; intros s Hwf HP; [done|].
  rewrite run_cons. apply IH; [by apply wf_step|by apply Hstep].
Qed.

Lemma run_nextLoanId h s : wf s → nextLoanId s ≤ nextLoanId (run h s).
Proof.
  revert s. induction h as [|b h IH]; intros s H; [done|].
  rewrite run_cons. etrans; [|apply IH, wf_step, H].
  apply (adv_next _ _ _ _ (step_advance _ _ _ _ (wf_entered _ H))).
Qed.

(** A closed loan (funded, no longer active) is frozen. *)
Lemma loan_step_closed now tx id l l' :
  loan_step now tx id l l' → funded l = true → active l = false → l' = l.
Proof. intros [] ??; congruence. Qed.

Lemma loan_step_funded now tx id l l' :
  loan_step now tx id l l' → funded l = true → funded l' = true.
Proof. by intros []. Qed.

(** An unfunded loan can only stay as it is or get funded. *)
Lemma loan_step_unfunded now tx id l l' :
  loan_step now tx id l l' → funded l' = false → l' = l.
Proof. intros []; simpl; congruence. Qed.

Lemma step_closed recipient now tx s id :
  wf s → id < nextLoanId s →
  funded (loanAt s id) = true → active (loanAt s id) = false →
  loanAt (step recipient now tx s) id = loanAt s id.
Proof.
  intros Hwf Hid Hf Ha.
  pose proof (step_advance recipient now tx s (wf_entered _ Hwf)) as Hadv.
  eapply loan_step_closed; [apply (adv_loans _ _ _ _ Hadv id Hid)|done..].
Qed.

Lemma funded_exists s id : wf s → funded (loanAt s id) = true → id < nextLoanId s.
Proof.
  intros Hwf Hf. destruct (decide (id < nextLoanId s)); [done|].
  destruct (wf_unused _ Hwf id) as [E _]; [lia|congruence].
Qed.

Lemma run_closed h s id :
  wf s → funded (loanAt s id) = true → active (loanAt s id) = false →
  loanAt (run h s) id = loanAt s id.
Proof.
  revert s. induction h as [|b h IH]; intros s Hwf Hf Ha; [done|].
  rewrite run_cons.
  pose proof (step_closed (blk_recipient b) (blk_now b) (blk_tx b) s id Hwf
    (funded_exists _ _ Hwf Hf) Hf Ha) as E.
  rewrite IH; [done|by apply wf_step|by rewrite E..].
Qed.

Lemma run_funded h s id :
  wf s → funded (loanAt s id) = true → funded (loanAt (run h s) id) = true.
Proof.
  revert s. induction h as [|b h IH]; intros s Hwf Hf; [done|].
  rewrite run_cons. apply IH; [by apply wf_step|].
  pose proof (step_advance (blk_recipient b) (blk_now b) (blk_tx b) s
    (wf_entered _ Hwf)) as Hadv.
  eapply loan_step_funded; [|exact Hf].
  apply (adv_loans _ _ _ _ Hadv), funded_exists; done.
Qed.

Lemma run_unfunded h s id :
  wf s → id < nextLoanId s → funded (loanAt (run h s) id) = false →
  loanAt (run h s) id = loanAt s id.
Proof.
  revert s. induction h as [|b h IH]; intros s Hwf Hid Hf; [done|].
  rewrite run_cons in *.
  pose proof (step_advance (blk_recipient b) (blk_now b) (blk_tx b) s
    (wf_entered _ Hwf)) as Hadv.
  set (s1 := step (blk_recipient b) (blk_now b) (blk_tx b) s) in *.
  assert (Hid1 : id < nextLoanId s1).
  { pose proof (adv_next _ _ _ _ Hadv). lia. }
  rewrite IH by (done || by apply wf_step).
  eapply loan_step_unfunded; [apply (adv_loans _ _ _ _ Hadv id Hid)|].
  destruct (funded (loanAt s1 id)) eqn:E; [|done].
  rewrite (run_funded h s1 id) in Hf; [done|by apply wf_step|done].
Qed.

(** ** Running the code forward *)

Ltac munfold :=
  unfold execute, dispatch, payable, nonpayable, createLoan, fundLoan, repay,
    claimCollateral, getLoan, pause, unpause, _pause, _unpause, nonReentrant,
    whenNotPaused, onlyOwner, onlyBorrower, onlyLender, loanExists, loanActive,
    loanFunded, take_loanId, checked_add, checked_mul, store, load, emit, tell,
    modify, get, revert_if, revert, mbind, M_bind, mret, M_ret.

Ltac bsolve :=
  repeat match goal with
  | |- negb _ = true => apply negb_true_iff
  | |- negb _ = false => apply negb_false_iff
  | |- _ || _ = false => apply orb_false_iff; split
  | |- (_ =? _) = true => apply N.eqb_eq
  | |- (_ =? _) = false => apply N.eqb_neq
  | |- (_ <? _) = true => apply N.ltb_lt
  | |- (_ <? _) = false => apply N.ltb_ge
  | |- (_ <=? _) = true => apply N.leb_le
  | |- (_ <=? _) = false => apply N.leb_gt
  end;
  rewrite ?loanAt_insert_eq, ?loanAt_with_entered, ?loanAt_with_balance;
  simpl; first [assumption | lia | congruence].

(** Decide the next test of the code from the hypotheses. *)
Ltac fwd1 :=
  match goal with
  | |- context [if ?c then _ else _] =>
      first
        [ let E := fresh in assert (E : c = true) by bsolve; rewrite E
        | let E := fresh in assert (E : c = false) by bsolve; rewrite E ];
      simpl
  end.

Ltac fwd := munfold; simpl; repeat fwd1.

(** ** Who can move the pause switch *)

Lemma createLoan_switch sender value a r c d s u s' log :
  createLoan sender value a r c d s = Ok u s' log →
  paused s' = paused s ∧ owner s' = owner s.
Proof.
  intros H. apply createLoan_Ok in H.
  by destruct H as (_ & _ & _ & _ & _ & _ & _ & -> & _).
Qed.

Lemma fundLoan_switch cv now sender value id s u s' log :
  keeps_switch (owner s) cv →
  fundLoan cv now sender value id s = Ok u s' log →
  paused s' = paused s ∧ owner s' = owner s.
Proof.
  intros Hcv H. unfold fundLoan in H. minv.
  match goal with H : cv _ _ _ = Ok _ _ _ |- _ =>
    apply Hcv in H; [|done]; simpl in H; destruct H end.
  done.
Qed.

Lemma claimCollateral_switch cv now sender id s u s' log :
  keeps_switch (owner s) cv →
  claimCollateral cv now sender id s = Ok u s' log →
  paused s' = paused s ∧ owner s' = owner s.
Proof.
  intros Hcv H. unfold claimCollateral in H. minv.
  match goal with H : cv _ _ _ = Ok _ _ _ |- _ =>
    apply Hcv in H; [|done]; simpl in H; destruct H end.
  done.
Qed.

Lemma repay_switch cv sender value id s u s' log :
  keeps_switch (owner s) cv →
  repay cv sender value id s = Ok u s' log →
  paused s' = paused s ∧ owner s' = owner s.
Proof.
  intros Hcv H. unfold repay in H. minv.
  match goal with H : cv _ _ _ = Ok _ _ _ |- _ =>
    apply Hcv in H; [|done]; simpl in H; destruct H as [P1 O1] end.
  match goal with H : (if ?c then _ else _) _ = Ok _ _ _ |- _ =>
    destruct c end; [|by minv].
  minv.
  match goal with H : (if ?c then _ else _) _ = Ok _ _ _ |- _ =>
    destruct c end; [|by minv].
  minv.
  match goal with H : cv _ _ _ = Ok _ _ _ |- _ =>
    apply Hcv in H; [|done]; simpl in H; destruct H as [P2 O2] end.
  split; congruence.
Qed.

Lemma dispatch_switch cv now tx s u s' log :
  keeps_switch (owner s) cv → tx_sender tx ≠ owner s →
  dispatch cv now tx s = Ok u s' log →
  paused s' = paused s ∧ owner s' = owner s.
Proof.
  intros Hcv Hs H. destruct tx as [sender value call]. simpl in Hs.
  unfold dispatch in H; simpl in H.
  destruct call; unfold payable, nonpayable in H;
    apply bind_Ok in H; destruct H as (? & s1 & ? & ? & H1 & H2 & _);
    first [apply modify_Ok in H1; destruct H1 as [-> _]
          |apply revert_if_Ok in H1; destruct H1 as (_ & -> & _)].
  - by apply createLoan_switch in H2.
  - by apply fundLoan_switch in H2.
  - by apply repay_switch in H2.
  - by apply claimCollateral_switch in H2.
  - apply pause_Ok in H2. by destruct H2 as [<- _].
  - apply unpause_Ok in H2. by destruct H2 as [<- _].
  - minv.
    match goal with H : getLoan _ _ = Ok _ _ _ |- _ =>
      apply getLoan_Ok in H; destruct H as (_ & _ & _ & -> & _) end.
    done.
Qed.

Lemma reenter_switch cv now txs s s' evs :
  keeps_switch (owner s) cv →
  Forall (λ tx, tx_sender tx ≠ owner s) txs →
  reenter (dispatch cv now) txs s = (s', evs) →
  paused s' = paused s ∧ owner s' = owner s.
Proof.
  intros Hcv Hall. revert s s' evs Hcv Hall.
  induction txs as [|tx txs IH]; intros s s' evs Hcv Hall H; simpl in H.
  - by injection H as <- _.
  - inversion Hall as [|?? Htx Hrest]; subst.
    destruct (dispatch cv now tx s) as [u s1 log|e] eqn:Hd.
    + destruct (reenter (dispatch cv now) txs s1) as [s2 evs2] eqn:Hr.
      injection H as <- _.
      apply dispatch_switch in Hd; [|done..]. destruct Hd as [P1 O1].
      apply IH in Hr; [|by rewrite O1..]. destruct Hr. split; congruence.
    + by eapply IH.
Qed.

Lemma call_inner_switch a recipient : keeps_switch a (call_inner recipient).
Proof.
  intros to v s b s' log Ho H. unfold call_inner, transfer in H.
  destruct (balance s <? v); [by injection H as _ <- _|].
  destruct (accepted _); by injection H as _ <- _.
Qed.

Lemma call_outer_switch a recipient now :
  silent a recipient → keeps_switch a (call_outer recipient now).
Proof.
  intros Hs to v s b s' log Ho H. unfold call_outer, transfer in H.
  destruct (balance s <? v); [by injection H as _ <- _|].
  destruct (accepted _); [|by injection H as _ <- _].
  destruct (reenter _ _ _) as [s2 evs] eqn:Hr. injection H as _ <- _.
  apply reenter_switch in Hr; simpl in *.
  - by rewrite <- Ho.
  - rewrite Ho. apply call_inner_switch.
  - rewrite Ho. apply Hs.
Qed.

Lemma step_switch recipient now tx s :
  tx_sender tx ≠ owner s → silent (owner s) recipient →
  paused (step recipient now tx s) = paused s.
Proof.
  intros Htx Hs. unfold step.
  destruct (execute recipient now tx s) as [u s' log|e] eqn:H; [|done].
  apply dispatch_switch in H; [by destruct H|by apply call_outer_switch|done].
Qed.

(** ** Transactions and the functions they enter *)

Lemma execute_fundLoan recipient now sender value id s :
  execute recipient now (mkTx sender value (FundLoan id)) s =
  fundLoan (call_outer recipient now) now sender value id
    (with_balance (balance s + value) s).
Proof.
  unfold execute, dispatch, payable; simpl.
  rewrite (bind_step _ _ s tt (with_balance (balance s + value) s) [])
    by done.
  by destruct (fundLoan _ _ _ _ _ _).
Qed.

Lemma execute_repay recipient now sender value id s :
  execute recipient now (mkTx sender value (Repay id)) s =
  repay (call_outer recipient now) sender value id
    (with_balance (balance s + value) s).
Proof.
  unfold execute, dispatch, payable; simpl.
  rewrite (bind_step _ _ s tt (with_balance (balance s + value) s) [])
    by done.
  by destruct (repay _ _ _ _ _).
Qed.

Lemma execute_claimCollateral recipient now sender id s :
  execute recipient now (mkTx sender 0 (ClaimCollateral id)) s =
  claimCollateral (call_outer recipient now) now sender id s.
Proof.
  unfold execute, dispatch, nonpayable; simpl.
  rewrite (bind_step _ _ s tt s []) by done.
  by destruct (claimCollateral _ _ _ _ _).
Qed.

Lemma execute_createLoan recipient now sender value a r c d s :
  execute recipient now (mkTx sender value (CreateLoan a r c d)) s =
  createLoan sender value a r c d (with_balance (balance s + value) s).
Proof.
  unfold execute, dispatch, payable; simpl.
  rewrite (bind_step _ _ s tt (with_balance (balance s + value) s) [])
    by done.
  by destruct (createLoan _ _ _ _ _ _ _).
Qed.

Lemma call_outer_accepting recipient now to amount s :
  accepting recipient → amount ≤ balance s →
  ∃ s1 evs,
    call_outer recipient now to amount s = Ok true s1 [Transfer to amount evs].
Proof.
  intros Ha Hb. unfold call_outer, transfer.
  apply N.ltb_ge in Hb. rewrite Hb, Ha.
  destruct (reenter _ _ _) as [s2 evs]. eauto.
Qed.

(** * The specification, claim by claim *)

(** ** Ordering of effects and interactions *)

(** Every repayment that reaches the cap writes [active] (and
    [collateralAmount]) after the lender has been paid. *)
Lemma repay_closing_order recipient now sender value id s u s' log :
  execute recipient now (mkTx sender value (Repay id)) s = Ok u s' log →
  requiredRepayment (loanAt s id) ≤ totalRepaid (loanAt s id) + value →
  effects_before_interactions log = false.
Proof.
  rewrite execute_repay. intros H Hreq. apply repay_Ok in H.
  rewrite loanAt_with_balance in H.
  destruct H as (_ & _ & _ & _ & evs &
    [(? & _)|[(_ & _ & _ & ->)|(_ & _ & _ & evs2 & ->)]]); [lia|done..].
Qed.

(** A repayment that stays below the cap keeps the order: its only write
    precedes its only transfer. *)
Lemma repay_partial_order recipient now sender value id s u s' log :
  execute recipient now (mkTx sender value (Repay id)) s = Ok u s' log →
  totalRepaid (loanAt s id) + value < requiredRepayment (loanAt s id) →
  effects_before_interactions log = true.
Proof.
  rewrite execute_repay. intros H Hreq. apply repay_Ok in H.
  rewrite loanAt_with_balance in H.
  destruct H as (_ & _ & _ & _ & evs &
    [(_ & _ & ->)|[(? & _)|(? & _)]]); [done|lia..].
Qed.

(** C1. Repay is meant to perform every bookkeeping write of the loan record
    before any value transfer.  On the closing repayment of the test scenario
    (loan 1: principal 10, cap 120, collateral 2; the borrower pays 12) the
    code pays the lender first and only then clears [active] and zeroes
    [collateralAmount]: the ordering does not hold. *)
Theorem repay_writes_after_lender_transfer :
  ∃ s',
    execute passive 3000 (mkTx 11 12 (Repay 1)) funded1 =
      Ok tt s'
        [Store 1 STotalRepaid; Emit (LoanRepaid 1 12); Transfer 22 12 [];
         Store 1 SActive; Store 1 SCollateralAmount; Transfer 11 2 [];
         Emit (LoanClosed 1)] ∧
    effects_before_interactions
      [Store 1 STotalRepaid; Emit (LoanRepaid 1 12); Transfer 22 12 [];
       Store 1 SActive; Store 1 SCollateralAmount; Transfer 11 2 [];
       Emit (LoanClosed 1)] = false.
Proof. eexists. split; [vm_compute; reflexivity|reflexivity]. Qed.

(** ** Repayment accounting *)

(** C2. A successful repayment of [value] on loan [id] adds exactly [value]
    to [totalRepaid]; the loan is closed ([active] cleared, a positive
    collateral zeroed and sent to the borrower) exactly when the new total
    reaches [principal * repaymentCapPercent / 100] (floor division); nothing
    bounds [value] from above. *)
Theorem repay_accounting recipient now sender value id s u s' log :
  execute recipient now (mkTx sender value (Repay id)) s = Ok u s' log →
  let l := loanAt s id in
  let l' := loanAt s' id in
  (funded l = true ∧ active l = true ∧ borrower l = sender ∧ 0 < value) ∧
  totalRepaid l' = totalRepaid l + value ∧
  requiredRepayment l = (principal l * repaymentCapPercent l) / 100 ∧
  principal l * repaymentCapPercent l ≤ MAX_UINT256 ∧
  (active l' = false ↔ requiredRepayment l ≤ totalRepaid l') ∧
  (requiredRepayment l ≤ totalRepaid l' →
     collateralAmount l' = 0 ∧
     (0 < collateralAmount l →
        ∃ evs, Transfer (borrower l) (collateralAmount l) evs ∈ log)) ∧
  (totalRepaid l' < requiredRepayment l →
     active l' = true ∧ collateralAmount l' = collateralAmount l ∧
     ∀ to amount evs, Transfer to amount evs ∈ log → to = lender l) ∧
  (∃ evs, Transfer (lender l) value evs ∈ log) ∧
  funded l' = true.
Proof.
  rewrite execute_repay. intros H l l'. apply repay_Ok in H.
  rewrite loanAt_with_balance in H. fold l in H.
  destruct H as (_ & (Hb & Hf & Ha & Hv & Hmul & Hadd) & _ & _ & evs & H).
  split; [split_and!; try done; lia|].
  destruct H as [(Hlt & Hl & ->)|[(Hge & Hc & Hl & ->)|(Hge & Hc & Hl & evs2 & ->)]];
    subst l'; rewrite Hl; simpl; rewrite ?Ha.
  - split_and!; try done; try lia.
    + intros _. split_and!; try done.
      intros to amount evs' Hin.
      repeat (apply elem_of_cons in Hin as [Hin|Hin]; [congruence|]).
      by apply elem_of_nil in Hin.
    + exists evs. set_solver.
  - split_and!; try done; try lia.
    exists evs. set_solver.
  - split_and!; try done; try lia.
    + intros _. split; [done|]. intros _. exists evs2. set_solver.
    + exists evs. set_solver.
Qed.

(** Scenario A of the test suite and an overpayment: the borrower pays 50 on
    a loan that owes 12; the payment is taken in full and the loan closes. *)
Lemma repay_accounting_witness :
  ∃ s' log,
    execute passive 3000 (mkTx 11 50 (Repay 1)) funded1 = Ok tt s' log ∧
    totalRepaid (loanAt s' 1) = totalRepaid (loanAt funded1 1) + 50 ∧
    (active (loanAt s' 1) = false ↔
       requiredRepayment (loanAt funded1 1) ≤ totalRepaid (loanAt s' 1)).
Proof.
  destruct (execute passive 3000 (mkTx 11 50 (Repay 1)) funded1)
    as [[] s' log|e] eqn:H; [|vm_compute in H; discriminate].
  exists s', log. split; [reflexivity|].
  pose proof (repay_accounting passive 3000 11 50 1 funded1 tt s' log H)
    as (_ & Ht & _ & _ & Hc & _).
  split; [exact Ht|exact Hc].
Defined.

(** ** Creation *)

Lemma createLoan_run sender value a r c d s :
  paused s = false → nextLoanId s < MAX_UINT256 →
  valid_request a r c d value →
  createLoan sender value a r c d s =
    Ok tt
      (with_loans
         (<[nextLoanId s :=
              mkLoan sender 0 a r c 0 false false value 0 d]> (loans s))
         (with_nextLoanId (nextLoanId s + 1) s))
      [Store (nextLoanId s) SRecord;
       Emit (LoanCreated (nextLoanId s) sender a r c d value)].
Proof.
  intros Hp Hn (Ha & Hr & Hc & Hd & Hv). fwd. done.
Qed.

Lemma createLoan_rejects sender value a r c d s :
  paused s = false → ¬ valid_request a r c d value →
  ∃ e, validation_error e ∧ createLoan sender value a r c d s = Revert e.
Proof.
  intros Hp Hbad. unfold validation_error.
  destruct (decide (a = 0)) as [->|Ha].
  { exists InvalidPrincipal. split; [set_solver|]. by fwd. }
  destruct (decide (r = 0)) as [->|Hr].
  { exists InvalidRevenueShare. split; [set_solver|]. by fwd. }
  destruct (decide (c < 100)) as [Hc|Hc].
  { exists InvalidRepaymentCap. split; [set_solver|]. by fwd. }
  destruct (decide (d = 0)) as [->|Hd].
  { exists InvalidDuration. split; [set_solver|]. by fwd. }
  destruct (decide (a < value)) as [Hv|Hv].
  { exists CollateralTooHigh. split; [set_solver|]. by fwd. }
  exfalso. apply Hbad. unfold valid_request. lia.
Qed.

(** C3. With the ledger not paused (and the id counter not exhausted), Create
    succeeds exactly when principal > 0, revenueSharePercent > 0,
    repaymentCapPercent >= 100, duration > 0 and postedValue <= principal, and
    fails with a validation error otherwise; posting exactly the principal is
    accepted, one unit more is refused as too much collateral; a refused
    Create leaves the ledger as it was. *)
Theorem createLoan_validation recipient now sender value a r c d s :
  paused s = false → nextLoanId s < MAX_UINT256 →
  let create v := execute recipient now (mkTx sender v (CreateLoan a r c d)) in
  ((∃ s' log, create value s = Ok tt s' log) ↔ valid_request a r c d value) ∧
  (¬ valid_request a r c d value →
     ∃ e, validation_error e ∧ create value s = Revert e) ∧
  (0 < a → 0 < r → 100 ≤ c → 0 < d →
     (∃ s' log, create a s = Ok tt s' log) ∧
     create (a + 1) s = Revert CollateralTooHigh) ∧
  (∀ e, create value s = Revert e →
     step recipient now (mkTx sender value (CreateLoan a r c d)) s = s).
Proof.
  intros Hp Hn create. subst create. simpl. rewrite !execute_createLoan.
  split_and!.
  - split.
    + intros (s' & log & H). apply createLoan_Ok in H.
      unfold valid_request. destruct H as (_ & ? & ? & ? & ? & ? & _). lia.
    + intros Hv. rewrite createLoan_run by done. eauto.
  - intros Hbad. by apply createLoan_rejects.
  - intros Ha Hr Hc Hd. split.
    + rewrite createLoan_run; [eauto|done|done|]. unfold valid_request. lia.
    + by fwd.
  - intros e He. unfold step. rewrite execute_createLoan. by rewrite He.
Qed.

Lemma createLoan_validation_witness :
  (∃ s' log,
     execute passive 1000 (mkTx 11 10 (CreateLoan 10 10 120 WEEK))
       (initial 99) = Ok tt s' log) ∧
  execute passive 1000 (mkTx 11 11 (CreateLoan 10 10 120 WEEK)) (initial 99)
    = Revert CollateralTooHigh.
Proof.
  assert (Hn : nextLoanId (initial 99) < MAX_UINT256) by (vm_compute; done).
  pose proof (createLoan_validation passive 1000 11 2 10 10 120 WEEK
    (initial 99) eq_refl Hn) as (_ & _ & H & _).
  apply H; vm_compute; done.
Defined.

(** ** Default *)

(** Against C4 as worded: the lender claims at time 3000, long before
    [startTime + duration]; the call fails, but on the overflow of
    [startTime + duration], not as "not yet matured". *)
Lemma claim_on_endless_loan_panics :
  let l := loanAt endless 1 in
  entered endless = false ∧ paused endless = false ∧
  funded l = true ∧ active l = true ∧ lender l = 22 ∧
  3000 ≤ startTime l + duration l ∧
  execute passive 3000 (mkTx 22 0 (ClaimCollateral 1)) endless
    = Revert (Panic ARITHMETIC_OVERFLOW) ∧
  execute passive 3000 (mkTx 22 0 (ClaimCollateral 1)) endless
    ≠ Revert LoanNotMatured.
Proof.
  assert (E : execute passive 3000 (mkTx 22 0 (ClaimCollateral 1)) endless
            = Revert (Panic ARITHMETIC_OVERFLOW)) by (vm_compute; done).
  simpl. rewrite E. split_and!; try (vm_compute; done).
Qed.

(** C4, with the overflow case spelled out.  For a funded, active loan on a
    ledger that is not paused, ClaimDefault called from outside by the lender
    at a time not after [startTime + duration] fails: as "not yet matured"
    when that sum fits in 256 bits (the instant [startTime + duration] itself
    included), and on the arithmetic overflow of the sum otherwise, whatever
    the time.  It can only succeed strictly after [startTime + duration], with
    [totalRepaid] below the required repayment and a positive
    [collateralAmount]. *)
Theorem claimCollateral_maturity recipient now sender id s :
  entered s = false → paused s = false → id ≠ 0 → id < nextLoanId s →
  let l := loanAt s id in
  funded l = true → active l = true → lender l = sender →
  let result := execute recipient now (mkTx sender 0 (ClaimCollateral id)) s in
  (now ≤ startTime l + duration l →
     startTime l + duration l ≤ MAX_UINT256 →
     result = Revert LoanNotMatured) ∧
  (MAX_UINT256 < startTime l + duration l →
     result = Revert (Panic ARITHMETIC_OVERFLOW)) ∧
  (∀ u s' log, result = Ok u s' log →
     startTime l + duration l < now ∧
     totalRepaid l < requiredRepayment l ∧
     0 < collateralAmount l).
Proof.
  intros He Hp H0 Hid l Hf Ha Hl result. subst result l.
  rewrite execute_claimCollateral. split_and!.
  - intros Hnow Hfit. by fwd.
  - intros Hover. by fwd.
  - intros u s' log H. apply claimCollateral_Ok in H.
    destruct H as (_ & (_ & _ & _ & _ & ? & _ & ? & ?) & _). done.
Qed.

(** The boundary instant of the test scenario: funded at 2000 for a week,
    claimed at exactly 2000 + one week. *)
Lemma claimCollateral_maturity_witness :
  execute passive (2000 + WEEK) (mkTx 22 0 (ClaimCollateral 1)) funded1
    = Revert LoanNotMatured.
Proof.
  pose proof (claimCollateral_maturity passive (2000 + WEEK) 22 1 funded1)
    as H.
  assert (H1 : (1 : N) ≠ 0) by done.
  assert (H2 : 1 < nextLoanId funded1) by (vm_compute; done).
  destruct (H eq_refl eq_refl H1 H2 eq_refl eq_refl eq_refl) as (Hb & _).
  apply Hb; vm_compute; discriminate.
Defined.

(** C5. A successful ClaimDefault emits exactly three events, in the order
    defaulted, collateral claimed, closed, and its only transfer, of the
    collateral to the lender, comes after all three. *)
Theorem claimCollateral_events recipient now sender id s u s' log :
  execute recipient now (mkTx sender 0 (ClaimCollateral id)) s = Ok u s' log →
  events_of log =
    [LoanDefaulted id; CollateralClaimed id sender; LoanClosed id] ∧
  ∃ evs,
    log =
      [Store id SActive; Store id SCollateralAmount;
       Emit (LoanDefaulted id); Emit (CollateralClaimed id sender);
       Emit (LoanClosed id)] ++
      [Transfer (lender (loanAt s id)) (collateralAmount (loanAt s id)) evs].
Proof.
  rewrite execute_claimCollateral. intros H. apply claimCollateral_Ok in H.
  destruct H as (_ & _ & _ & _ & _ & evs & ->). split; [done|eauto].
Qed.

Lemma claimCollateral_events_witness :
  ∃ s' log,
    execute passive (2001 + WEEK) (mkTx 22 0 (ClaimCollateral 1)) funded1
      = Ok tt s' log ∧
    events_of log = [LoanDefaulted 1; CollateralClaimed 1 22; LoanClosed 1].
Proof.
  destruct (execute passive (2001 + WEEK) (mkTx 22 0 (ClaimCollateral 1))
              funded1) as [[] s' log|e] eqn:H; [|vm_compute in H; discriminate].
  exists s', log. split; [reflexivity|].
  exact (proj1 (claimCollateral_events passive (2001 + WEEK) 22 1 funded1
                  tt s' log H)).
Defined.

(** ** Funding *)

Lemma fundLoan_funded recipient now sender value id s :
  entered s = false → paused s = false → id ≠ 0 → id < nextLoanId s →
  funded (loanAt s id) = true →
  execute recipient now (mkTx sender value (FundLoan id)) s
    = Revert LoanAlreadyFunded.
Proof. intros. rewrite execute_fundLoan. by fwd. Qed.

(** C7. On a ledger that is not paused, Fund invoked from outside (the
    reentrancy guard being free) reports a reason of its own for a loan id
    that does not exist, a loan already funded, a loan already active, a
    caller who is the borrower, and a value different from the principal; a
    failed Fund changes nothing, and after a successful Fund any further Fund
    of the same loan fails as already funded and leaves the funded state as
    it is. *)
Theorem fundLoan_failures recipient now sender value id s :
  entered s = false → paused s = false →
  let l := loanAt s id in
  let tx := mkTx sender value (FundLoan id) in
  let known := id ≠ 0 ∧ id < nextLoanId s in
  (¬ known → execute recipient now tx s = Revert LoanDoesNotExist) ∧
  (known → funded l = true →
     execute recipient now tx s = Revert LoanAlreadyFunded) ∧
  (known → funded l = false → active l = true →
     execute recipient now tx s = Revert LoanAlreadyActive) ∧
  (known → funded l = false → active l = false → sender = borrower l →
     execute recipient now tx s = Revert BorrowerCannotFundOwnLoan) ∧
  (known → funded l = false → active l = false → sender ≠ borrower l →
     value ≠ principal l →
     execute recipient now tx s = Revert IncorrectFundingAmount) ∧
  NoDup [LoanDoesNotExist; LoanAlreadyFunded; LoanAlreadyActive;
         BorrowerCannotFundOwnLoan; IncorrectFundingAmount; TransferFailed] ∧
  (∀ e, execute recipient now tx s = Revert e → step recipient now tx s = s) ∧
  (∀ u s1 log, execute recipient now tx s = Ok u s1 log →
     ∀ recipient' now' sender' value', paused s1 = false →
       let tx' := mkTx sender' value' (FundLoan id) in
       execute recipient' now' tx' s1 = Revert LoanAlreadyFunded ∧
       step recipient' now' tx' s1 = s1).
Proof.
  intros He Hp l tx known. subst l tx known. simpl.
  rewrite !execute_fundLoan. split_and!.
  - intros Hk.
    assert (Hc : (id =? 0) || (nextLoanId s <=? id) = true).
    { apply orb_true_iff. destruct (decide (id = 0)) as [->|H0]; [by left|].
      right. apply N.leb_le. destruct (decide (id < nextLoanId s)); [|lia].
      exfalso. by apply Hk. }
    munfold. simpl. rewrite He. simpl. rewrite Hp. simpl. by rewrite Hc.
  - intros [] ?. by fwd.
  - intros [] ??. by fwd.
  - intros [] ???. by fwd.
  - intros [] ????. by fwd.
  - repeat (apply NoDup_cons; split;
      [intros Hin;
       repeat (apply elem_of_cons in Hin as [Hin|Hin]; [discriminate|]);
       by apply elem_of_nil in Hin|]).
    apply NoDup_nil_2.
  - intros e H. unfold step. rewrite execute_fundLoan. by rewrite H.
  - intros u s1 log H recipient' now' sender' value' Hp1.
    apply fundLoan_Ok in H. rewrite loanAt_with_balance in H.
    destruct H as ((_ & _ & H0 & Hid) & _ & He1 & Hl & Heff & _).
    simpl in Hid. pose proof (eff_next _ _ _ _ _ Heff) as Hn. simpl in Hn.
    assert (E : execute recipient' now' (mkTx sender' value' (FundLoan id)) s1
                = Revert LoanAlreadyFunded).
    { apply fundLoan_funded; try done; [lia|by rewrite Hl]. }
    split; [exact E|].
    unfold step. by rewrite E.
Qed.

(** Funding loan 1 of the scenario a second time. *)
Lemma fundLoan_failures_witness :
  execute passive 2500 (mkTx 33 10 (FundLoan 1)) funded1
    = Revert LoanAlreadyFunded ∧
  step passive 2500 (mkTx 33 10 (FundLoan 1)) funded1 = funded1.
Proof.
  pose proof (fundLoan_failures passive 2000 22 10 1 created eq_refl eq_refl)
    as (_ & _ & _ & _ & _ & _ & _ & H).
  destruct (execute passive 2000 (mkTx 22 10 (FundLoan 1)) created)
    as [[] s1 log|e] eqn:E; [|vm_compute in E; discriminate].
  assert (Hs : s1 = funded1).
  { unfold funded1, step. by rewrite E. }
  rewrite <- Hs. apply (H tt s1 log eq_refl passive 2500 33 10).
  rewrite Hs. reflexivity.
Defined.

(** ** The pause switch *)

(** C8. While the pause switch is on, Create, Fund, Repay and ClaimDefault,
    invoked from outside (the reentrancy guard being free), fail at once with
    the same pause error, whatever their arguments; a caller other than the
    administrator can neither pause nor unpause, and no transaction in which
    the administrator takes no part moves the switch; Get answers as usual. *)
Theorem pause_gate recipient now sender value id a r c d s :
  entered s = false → paused s = true →
  (execute recipient now (mkTx sender value (CreateLoan a r c d)) s
     = Revert EnforcedPause ∧
   execute recipient now (mkTx sender value (FundLoan id)) s
     = Revert EnforcedPause ∧
   execute recipient now (mkTx sender value (Repay id)) s
     = Revert EnforcedPause ∧
   execute recipient now (mkTx sender 0 (ClaimCollateral id)) s
     = Revert EnforcedPause) ∧
  (sender ≠ owner s →
     execute recipient now (mkTx sender 0 Unpause) s
       = Revert (OwnableUnauthorizedAccount sender) ∧
     execute recipient now (mkTx sender 0 Pause) (with_paused false s)
       = Revert (OwnableUnauthorizedAccount sender)) ∧
  (∀ tx, tx_sender tx ≠ owner s → silent (owner s) recipient →
     paused (step recipient now tx s) = true) ∧
  execute recipient now (mkTx (owner s) 0 Unpause) s
    = Ok tt (with_paused false s) [Emit (Unpaused (owner s))] ∧
  (id ≠ 0 → id < nextLoanId s →
     getLoan id s = Ok (loanAt s id) s [] ∧
     execute recipient now (mkTx sender 0 (GetLoan id)) s = Ok tt s []) ∧
  ((id = 0 ∨ nextLoanId s ≤ id) → getLoan id s = Revert LoanDoesNotExist).
Proof.
  intros He Hp. split_and!.
  - by fwd.
  - by fwd.
  - by fwd.
  - by fwd.
  - intros Hs. split; by fwd.
  - intros tx Htx Hsil. rewrite <- Hp. by apply step_switch.
  - by fwd.
  - intros H0 Hid. split; by fwd.
  - intros Hk.
    assert (Hc : (id =? 0) || (nextLoanId s <=? id) = true).
    { apply orb_true_iff. destruct Hk as [->|Hk]; [by left|].
      right. by apply N.leb_le. }
    munfold. simpl. by rewrite Hc.
Qed.

Lemma pause_gate_witness :
  execute passive 3000 (mkTx 11 12 (Repay 1)) paused1 = Revert EnforcedPause ∧
  getLoan 1 paused1 = Ok (loanAt paused1 1) paused1 [].
Proof.
  pose proof (pause_gate passive 3000 11 12 1 10 10 120 WEEK paused1
    eq_refl eq_refl) as ((_ & _ & H1 & _) & _ & _ & _ & H2 & _).
  split; [exact H1|]. apply H2; vm_compute; done.
Defined.

(** ** The clock plays no part in a repayment *)

(** [repay] depends on the transfer mechanism only through what it does
    while the guard is held. *)
Lemma repay_ext cv1 cv2 sender value id s :
  (∀ to v st, entered st = true → cv1 to v st = cv2 to v st) →
  (∀ to v st b st' log,
     entered st = true → cv2 to v st = Ok b st' log → entered st' = true) →
  repay cv1 sender value id s = repay cv2 sender value id s.
Proof.
  intros Hext Hkeep. munfold. simpl.
  repeat first
    [ match goal with
      | |- context [if ?c then _ else _] =>
          destruct c eqn:?; simpl; try reflexivity
      end
    | match goal with
      | |- context [cv1 ?a ?v ?st] =>
          rewrite (Hext a v st) by (simpl; congruence);
          let Hc := fresh "Hc" in
          destruct (cv2 a v st) as [[|] ? ?|?] eqn:Hc; simpl;
            try reflexivity;
          try (apply Hkeep in Hc; [|simpl; congruence])
      end ].
Qed.

Lemma dispatch_clock cv now now' tx s :
  entered s = true → dispatch cv now tx s = dispatch cv now' tx s.
Proof.
  intros H. destruct tx as [sender value []]; unfold dispatch; simpl;
    try reflexivity.
  - unfold payable, fundLoan.
    rewrite !(bind_step _ _ s tt (with_balance (balance s + value) s) [])
      by done.
    by rewrite !nonReentrant_entered.
  - unfold nonpayable, claimCollateral.
    destruct (negb (value =? 0)) eqn:E.
    + rewrite !(bind_Revert _ _ s NonPayable); done.
    + rewrite !(bind_step _ _ s tt s []) by done.
      by rewrite !nonReentrant_entered.
Qed.

Lemma reenter_clock cv now now' txs s :
  entered s = true →
  reenter (dispatch cv now) txs s = reenter (dispatch cv now') txs s.
Proof.
  revert s. induction txs as [|tx txs IH]; intros s He; [done|]. simpl.
  rewrite (dispatch_clock cv now now' tx s He).
  destruct (dispatch cv now' tx s) as [u s1 log|e] eqn:Hd; [|by apply IH].
  rewrite IH; [done|].
  rewrite (frame_entered _ _ (callback_frame _ _ _ _ _ _ _ He Hd)). done.
Qed.

Lemma call_outer_clock recipient now now' to v s :
  entered s = true →
  call_outer recipient now to v s = call_outer recipient now' to v s.
Proof.
  intros He. unfold call_outer, transfer.
  destruct (balance s <? v); [done|]. destruct (accepted _); [|done].
  by rewrite (reenter_clock _ now now').
Qed.

Lemma call_outer_entered recipient now to v s b s' log :
  entered s = true → call_outer recipient now to v s = Ok b s' log →
  entered s' = true.
Proof.
  intros He H. apply call_outer_Ok in H; [|done].
  destruct H as [(_ & -> & _)|(_ & _ & Hfr & _)]; [done|].
  by rewrite (frame_entered _ _ Hfr).
Qed.

Lemma execute_repay_clock recipient now now' sender value id s :
  execute recipient now (mkTx sender value (Repay id)) s =
  execute recipient now' (mkTx sender value (Repay id)) s.
Proof.
  rewrite !execute_repay. apply repay_ext.
  - intros. by apply call_outer_clock.
  - intros. by eapply call_outer_entered.
Qed.

(** ** Repayment after maturity *)

Lemma wf_collateral_covered s id :
  locked (loans s) ≤ balance s → collateralAmount (loanAt s id) ≤ balance s.
Proof. intros H. pose proof (locked_lookup (loans s) id). unfold loanAt. lia. Qed.

Lemma repay_run recipient now sender value id s :
  wf s → paused s = false → id ≠ 0 → id < nextLoanId s →
  let l := loanAt s id in
  funded l = true → active l = true → borrower l = sender → value ≠ 0 →
  principal l * repaymentCapPercent l ≤ MAX_UINT256 →
  totalRepaid l + value ≤ MAX_UINT256 →
  accepting recipient →
  ∃ s' log, execute recipient now (mkTx sender value (Repay id)) s = Ok tt s' log.
Proof.
  intros Hwf Hp H0 Hid l Hf Ha Hb Hv Hmul Hadd Hacc. subst l.
  pose proof (wf_entered _ Hwf) as He.
  pose proof (wf_solvent _ Hwf) as Hsol.
  rewrite execute_repay. fwd.
  match goal with |- context [call_outer ?r ?n ?to ?v ?st] =>
    destruct (call_outer_accepting r n to v st) as (s1 & evs & Hc);
      [done|simpl; lia|]; rewrite Hc; simpl end.
  eapply (store_call_effect _ _ id
    (λ l, set_totalRepaid (totalRepaid l + value) l) _ _
    (with_entered true (with_balance (balance s + value) s))) in Hc;
    [|done|done].
  destruct Hc as (E1 & E2 & E3 & E4 & _).
  rewrite ?loanAt_with_entered, ?loanAt_with_balance in *.
  assert (Hcol : collateralAmount (loanAt s1 id) = collateralAmount (loanAt s id))
    by by rewrite E3.
  assert (Hsol1 : locked (loans s1) ≤ balance s1).
  { pose proof (eff_flow _ _ _ _ _ E4) as Hflow. simpl in Hflow. lia. }
  pose proof (wf_collateral_covered s1 id Hsol1) as Hcov.
  destruct (decide (requiredRepayment (loanAt s id)
                    ≤ totalRepaid (loanAt s id) + value)) as [Hreq|Hreq];
    unfold requiredRepayment in Hreq; fwd1; [|eauto].
  destruct (decide (0 < collateralAmount (loanAt s id))) as [Hpos|Hpos];
    fwd1; [|eauto].
  match goal with |- context [call_outer ?r ?n ?to ?v ?st] =>
    destruct (call_outer_accepting r n to v st) as (s2 & evs2 & Hc);
      [done
      |rewrite ?loanAt_insert_eq; simpl; lia
      |rewrite Hc; simpl; eauto] end.
Qed.

Lemma execute_claimCollateral_Ok recipient now sender value id s u s' log :
  execute recipient now (mkTx sender value (ClaimCollateral id)) s
    = Ok u s' log →
  value = 0 ∧
  claimCollateral (call_outer recipient now) now sender id s = Ok u s' log.
Proof.
  unfold execute, dispatch, nonpayable; simpl. intros H.
  apply bind_Ok in H. destruct H as (? & ? & ? & ? & H1 & H2 & ->).
  apply revert_if_Ok in H1. destruct H1 as (Hv & -> & ->). bools. done.
Qed.

(** C9. Repay never looks at the clock: its outcome is the same at every
    time, and at any time [now], in particular after [startTime + duration],
    a positive payment by the borrower of a funded, active loan goes through
    (the ledger not being paused, the amounts fitting in 256 bits and the
    counterparties accepting their transfers).  If it reaches the required
    repayment the loan closes, the collateral goes back to the borrower, and
    no later ClaimDefault can succeed. *)
Theorem repay_after_maturity recipient now sender value id s :
  wf s → paused s = false → id ≠ 0 → id < nextLoanId s →
  let l := loanAt s id in
  funded l = true → active l = true → borrower l = sender → value ≠ 0 →
  principal l * repaymentCapPercent l ≤ MAX_UINT256 →
  totalRepaid l + value ≤ MAX_UINT256 →
  accepting recipient →
  (∀ now',
     execute recipient now' (mkTx sender value (Repay id)) s =
     execute recipient now (mkTx sender value (Repay id)) s) ∧
  ∃ s' log,
    execute recipient now (mkTx sender value (Repay id)) s = Ok tt s' log ∧
    totalRepaid (loanAt s' id) = totalRepaid l + value ∧
    (requiredRepayment l ≤ totalRepaid l + value →
       active (loanAt s' id) = false ∧
       collateralAmount (loanAt s' id) = 0 ∧
       (0 < collateralAmount l →
          ∃ evs, Transfer sender (collateralAmount l) evs ∈ log) ∧
       ∀ recipient' now' claimer value' u s'' log',
         execute recipient' now' (mkTx claimer value' (ClaimCollateral id)) s'
           ≠ Ok u s'' log').
Proof.
  intros Hwf Hp H0 Hid l Hf Ha Hb Hv Hmul Hadd Hacc.
  split; [intros now'; apply execute_repay_clock|].
  destruct (repay_run recipient now sender value id s) as (s' & log & H);
    try done.
  exists s', log. split; [done|].
  rewrite execute_repay in H. apply repay_Ok in H.
  rewrite loanAt_with_balance in H. fold l in H.
  destruct H as (_ & _ & _ & _ & evs &
    [(Hlt & Hl & ->)|[(Hge & Hc & Hl & ->)|(Hge & Hc & Hl & evs2 & ->)]]);
    rewrite Hl; simpl; (split; [done|]); intros Hreq; try lia.
  - split_and!; try done; [lia|].
    intros recipient' now' claimer value' u s'' log' Hcl.
    apply execute_claimCollateral_Ok in Hcl. destruct Hcl as [_ Hcl].
    apply claimCollateral_Ok in Hcl. rewrite Hl in Hcl. simpl in Hcl.
    by destruct Hcl as (_ & (_ & _ & ? & _) & _).
  - split_and!; try done.
    + intros _. exists evs2. rewrite <- Hb. set_solver.
    + intros recipient' now' claimer value' u s'' log' Hcl.
      apply execute_claimCollateral_Ok in Hcl. destruct Hcl as [_ Hcl].
      apply claimCollateral_Ok in Hcl. rewrite Hl in Hcl. simpl in Hcl.
      by destruct Hcl as (_ & (_ & _ & ? & _) & _).
Qed.

Lemma wf_funded1 : wf funded1.
Proof. unfold funded1, created. apply wf_step, wf_step, wf_initial. Qed.

(** Loan 1 of the scenario matures at 2000 + one week; the borrower repays
    the full 12 a thousand seconds later. *)
Lemma repay_after_maturity_witness :
  ∃ s' log,
    execute passive (3000 + WEEK) (mkTx 11 12 (Repay 1)) funded1
      = Ok tt s' log ∧
    active (loanAt s' 1) = false ∧ collateralAmount (loanAt s' 1) = 0.
Proof.
  assert (H0 : (1 : N) ≠ 0) by done.
  assert (H1 : 1 < nextLoanId funded1) by (vm_compute; done).
  assert (H2 : (12 : N) ≠ 0) by done.
  assert (H3 : principal (loanAt funded1 1) *
               repaymentCapPercent (loanAt funded1 1) ≤ MAX_UINT256)
    by (vm_compute; discriminate).
  assert (H4 : totalRepaid (loanAt funded1 1) + 12 ≤ MAX_UINT256)
    by (vm_compute; discriminate).
  assert (H5 : accepting passive) by (intros ???; reflexivity).
  destruct (repay_after_maturity passive (3000 + WEEK) 11 12 1 funded1
    wf_funded1 eq_refl H0 H1 eq_refl eq_refl eq_refl H2 H3 H4 H5)
    as (_ & s' & log & E & _ & Hclose).
  exists s', log. split; [exact E|].
  destruct Hclose as (A & C & _); [vm_compute; discriminate|].
  split; [exact A|exact C].
Defined.

(** ** Lifecycle flags *)

(** C6. Along any history of transactions since deployment: an active loan
    is a funded one; a funded loan stays funded; and once a loan that was
    active is no longer so, its record never changes again, so it is never
    active again and no Fund of it succeeds. *)
Theorem no_resurrection deployer h1 h2 h3 id :
  let s1 := run h1 (initial deployer) in
  let s2 := run h2 s1 in
  let s3 := run h3 s2 in
  (active (loanAt s1 id) = true → funded (loanAt s1 id) = true) ∧
  (funded (loanAt s1 id) = true → funded (loanAt s2 id) = true) ∧
  (active (loanAt s1 id) = true → active (loanAt s2 id) = false →
     active (loanAt s3 id) = false ∧ funded (loanAt s3 id) = true ∧
     loanAt s3 id = loanAt s2 id ∧
     ∀ recipient now funder value u s' log,
       execute recipient now (mkTx funder value (FundLoan id)) s3
         ≠ Ok u s' log).
Proof.
  intros s1 s2 s3.
  assert (W1 : wf s1) by apply wf_run, wf_initial.
  assert (W2 : wf s2) by by apply wf_run.
  split_and!.
  - apply (wf_active_funded _ W1).
  - by apply run_funded.
  - intros Ha1 Ha2.
    pose proof (wf_active_funded _ W1 id Ha1) as Hf1.
    pose proof (run_funded h2 s1 id W1 Hf1) as Hf2. fold s2 in Hf2.
    pose proof (run_closed h3 s2 id W2 Hf2 Ha2) as E. fold s3 in E.
    rewrite E. split_and!; try done.
    intros recipient now funder value u s' log H.
    rewrite execute_fundLoan in H. apply fundLoan_Ok in H.
    rewrite loanAt_with_balance, E in H.
    destruct H as (_ & (? & _) & _). congruence.
Qed.

(** The scenario loan, repaid in full and then offered fresh funding. *)
Lemma no_resurrection_witness :
  let h1 := [mkBlock passive 1000 (mkTx 11 2 (CreateLoan 10 10 120 WEEK));
             mkBlock passive 2000 (mkTx 22 10 (FundLoan 1))] in
  let h2 := [mkBlock passive 3000 (mkTx 11 12 (Repay 1))] in
  let h3 := [mkBlock passive 4000 (mkTx 33 10 (FundLoan 1));
             mkBlock passive 5000 (mkTx 11 1 (Repay 1))] in
  active (loanAt (run h1 (initial 99)) 1) = true ∧
  active (loanAt (run h2 (run h1 (initial 99))) 1) = false ∧
  active (loanAt (run h3 (run h2 (run h1 (initial 99)))) 1) = false.
Proof.
  intros h1 h2 h3.
  pose proof (no_resurrection 99 h1 h2 h3 1) as (_ & _ & H).
  assert (A1 : active (loanAt (run h1 (initial 99)) 1) = true)
    by (vm_compute; reflexivity).
  assert (A2 : active (loanAt (run h2 (run h1 (initial 99))) 1) = false)
    by (vm_compute; reflexivity).
  split; [exact A1|]. split; [exact A2|].
  exact (proj1 (H A1 A2)).
Defined.

(** ** Custody of the collateral *)

Lemma loan_step_collateral now tx id l l' :
  loan_step now tx id l l' →
  collateralAmount l' ≠ collateralAmount l →
  (tx_call tx = Repay id ∨ tx_call tx = ClaimCollateral id) ∧
  funded l = true ∧ active l = true ∧
  collateralAmount l' = 0 ∧ active l' = false.
Proof. intros [] Hne; simpl in *; try done; auto. Qed.

(** C10. Along any history since deployment the ledger holds at least the
    collateral recorded for each loan.  The recorded collateral of a loan
    changes only in a successful Repay or ClaimDefault of that loan, which
    found it funded and active, zeroes it and sends that amount to the
    borrower (Repay) or the lender (ClaimDefault).  As long as a loan has not
    been funded its record, collateral included, stays as created, and Repay
    and ClaimDefault on it fail. *)
Theorem collateral_custody deployer h1 h2 id :
  let s1 := run h1 (initial deployer) in
  let s2 := run h2 s1 in
  id < nextLoanId s1 →
  collateralAmount (loanAt s2 id) ≤ balance s2 ∧
  (∀ recipient now tx,
     let l := loanAt s2 id in
     let s3 := step recipient now tx s2 in
     collateralAmount (loanAt s3 id) ≠ collateralAmount l →
     funded l = true ∧ active l = true ∧
     collateralAmount (loanAt s3 id) = 0 ∧ active (loanAt s3 id) = false ∧
     ∃ log evs,
       execute recipient now tx s2 = Ok tt s3 log ∧
       ((tx_call tx = Repay id ∧
         Transfer (borrower l) (collateralAmount l) evs ∈ log) ∨
        (tx_call tx = ClaimCollateral id ∧
         Transfer (lender l) (collateralAmount l) evs ∈ log))) ∧
  (funded (loanAt s2 id) = false →
     loanAt s2 id = loanAt s1 id ∧
     ∀ recipient now sender value u s' log,
       execute recipient now (mkTx sender value (Repay id)) s2
         ≠ Ok u s' log ∧
       execute recipient now (mkTx sender value (ClaimCollateral id)) s2
         ≠ Ok u s' log).
Proof.
  intros s1 s2 Hid.
  assert (W1 : wf s1) by apply wf_run, wf_initial.
  assert (W2 : wf s2) by by apply wf_run.
  assert (Hid2 : id < nextLoanId s2).
  { pose proof (run_nextLoanId h2 s1 W1). fold s2 in H. lia. }
  split_and!.
  - apply wf_collateral_covered, (wf_solvent _ W2).
  - intros recipient now tx l s3 Hne. subst l s3. unfold step in *.
    destruct (execute recipient now tx s2) as [[] s3 log|e] eqn:H; [|done].
    pose proof (execute_advance _ _ _ _ _ _ _ (wf_entered _ W2) H) as Hadv.
    pose proof (loan_step_collateral _ _ _ _ _
      (adv_loans _ _ _ _ Hadv id Hid2) Hne) as (Hcall & Hf & Ha & Hz & Hi).
    split_and!; try done. exists log.
    destruct tx as [sender value call]. simpl in Hcall.
    destruct Hcall as [->| ->].
    + rewrite execute_repay in H. apply repay_Ok in H.
      rewrite loanAt_with_balance in H.
      destruct H as (_ & _ & _ & _ & evs &
        [(_ & Hl & _)|[(_ & Hc & Hl & _)|(_ & _ & _ & evs2 & ->)]]).
      * rewrite Hl in Hne. done.
      * rewrite Hl in Hne. done.
      * exists evs2. split; [done|]. left. split; [done|]. set_solver.
    + apply execute_claimCollateral_Ok in H. destruct H as [-> H].
      apply claimCollateral_Ok in H.
      destruct H as (_ & _ & _ & _ & _ & evs & ->).
      exists evs. split; [done|]. right. split; [done|]. set_solver.
  - intros Hf. split; [by apply run_unfunded|].
    intros recipient now sender value u s' log. split; intros H.
    + rewrite execute_repay in H. apply repay_Ok in H.
      rewrite loanAt_with_balance in H.
      destruct H as (_ & (_ & ? & _) & _). congruence.
    + apply execute_claimCollateral_Ok in H. destruct H as [_ H].
      apply claimCollateral_Ok in H.
      destruct H as (_ & (_ & ? & _) & _). congruence.
Qed.

(** The scenario loan before anyone funds it: other loans come and go, its
    two units of collateral stay in the ledger. *)
Lemma collateral_custody_witness :
  let h1 := [mkBlock passive 1000 (mkTx 11 2 (CreateLoan 10 10 120 WEEK))] in
  let h2 := [mkBlock passive 1500 (mkTx 44 0 (CreateLoan 5 10 100 WEEK));
             mkBlock passive 1600 (mkTx 55 5 (FundLoan 2));
             mkBlock passive 1700 (mkTx 44 5 (Repay 2));
             mkBlock passive 1800 (mkTx 11 1 (Repay 1))] in
  loanAt (run h2 (run h1 (initial 99))) 1 = loanAt (run h1 (initial 99)) 1 ∧
  collateralAmount (loanAt (run h2 (run h1 (initial 99))) 1)
    ≤ balance (run h2 (run h1 (initial 99))).
Proof.
  intros h1 h2.
  assert (Hid : 1 < nextLoanId (run h1 (initial 99))) by (vm_compute; done).
  pose proof (collateral_custody 99 h1 h2 1 Hid) as (Hheld & _ & Hstay).
  split; [|exact Hheld].
  apply Hstay. vm_compute. reflexivity.
Defined.

(** * The second copy of the contract, for comparison *)

(** Its [createLoan] has no bound on the collateral: posting 11
    against a principal of 10 is accepted. *)
Lemma legacy_createLoan_unbounded_collateral :
  ∃ s' log,
    payable 11 (Legacy.createLoan 11 11 10 10 120 WEEK) (initial 99)
      = Ok tt s' log ∧
    collateralAmount (loanAt s' 1) = 11 ∧ principal (loanAt s' 1) = 10.
Proof. eexists _, _. split; [vm_compute; reflexivity|done]. Qed.

(** Its [fundLoan] lets the borrower fund the loan. *)
Lemma legacy_fundLoan_by_borrower :
  ∃ s' log,
    payable 10 (Legacy.fundLoan Legacy.pay 2000 11 10 1) Legacy.created
      = Ok tt s' log ∧
    lender (loanAt s' 1) = borrower (loanAt s' 1).
Proof. eexists _, _. split; [vm_compute; reflexivity|done]. Qed.

(** Its [repay] pays the lender before any bookkeeping. *)
Lemma legacy_repay_order :
  ∃ s',
    payable 12 (Legacy.repay Legacy.pay 11 12 1) Legacy.funded1 =
      Ok tt s'
        [Transfer 22 12 []; Store 1 STotalRepaid; Emit (LoanRepaid 1 12);
         Store 1 SActive; Store 1 SCollateralAmount; Transfer 11 2 [];
         Emit (LoanClosed 1)].
Proof. eexists. vm_compute. reflexivity. Qed.

(** Its [claimCollateral] has no default event and emits after the
    transfer; it refuses the boundary instant in the same way. *)
Lemma legacy_claimCollateral_order :
  (∃ s',
     Legacy.claimCollateral Legacy.pay (2001 + WEEK) 22 1 Legacy.funded1 =
       Ok tt s'
         [Store 1 SActive; Store 1 SCollateralAmount; Transfer 22 2 [];
          Emit (CollateralClaimed 1 22); Emit (LoanClosed 1)]) ∧
  Legacy.claimCollateral Legacy.pay (2000 + WEEK) 22 1 Legacy.funded1 =
    Revert (ErrorString "Loan not yet matured").
Proof. split; [eexists|]; vm_compute; reflexivity. Qed.

(** * Further properties of the contract *)

(** ** Loans created during a transaction *)

Lemma grows_refl s : grows s s.
Proof. split; [done|lia|done|intros; lia]. Qed.

Lemma grows_trans s1 s2 s3 : grows s1 s2 → grows s2 s3 → grows s1 s3.
Proof.
  intros [] []. split; try congruence; try lia.
  - intros j Hj. rewrite grows_loans1 by lia. auto.
  - intros j H1 H3. destruct (decide (j < nextLoanId s2)).
    + rewrite grows_loans1 by done. auto.
    + apply grows_born1; lia.
Qed.

Lemma createLoan_grows sender value a r c d s u s' log :
  createLoan sender value a r c d s = Ok u s' log → grows s s'.
Proof.
  intros H. apply createLoan_Ok in H.
  destruct H as (_ & ? & ? & ? & ? & ? & _ & -> & _).
  split; simpl; auto; try lia.
  - intros j Hj. rewrite loanAt_with_loans; simpl.
    by rewrite lookup_total_insert_ne by lia.
  - intros j Hj1 Hj2. assert (j = nextLoanId s) as -> by lia.
    rewrite loanAt_with_loans; simpl. rewrite lookup_total_insert_eq.
    unfold newborn, well_termed; simpl. split_and!; try done; lia.
Qed.

Lemma frame_grows s s' :
  frame s s' → nextLoanId s' = nextLoanId s → grows s s'.
Proof.
  intros [] Hn. split; [done|lia|done|intros; lia].
Qed.

Lemma callback_grows cv now tx s u s' log :
  entered s = true → dispatch cv now tx s = Ok u s' log → grows s s'.
Proof.
  intros He H.
  pose proof (callback_frame _ _ _ _ _ _ _ He H) as Hfr.
  destruct tx as [sender value []]; unfold dispatch in H; simpl in H.
  - unfold payable in H. apply bind_Ok in H.
    destruct H as (? & ? & ? & ? & H1 & H2 & _).
    apply modify_Ok in H1. destruct H1 as [-> _].
    apply createLoan_grows in H2. destruct H2. split; auto.
  - unfold payable, fundLoan in H. apply bind_Ok in H.
    destruct H as (? & ? & ? & ? & H1 & H2 & _).
    apply modify_Ok in H1. destruct H1 as [-> _].
    rewrite nonReentrant_entered in H2; done.
  - unfold payable, repay in H. apply bind_Ok in H.
    destruct H as (? & ? & ? & ? & H1 & H2 & _).
    apply modify_Ok in H1. destruct H1 as [-> _].
    rewrite nonReentrant_entered in H2; done.
  - unfold nonpayable, claimCollateral in H. apply bind_Ok in H.
    destruct H as (? & ? & ? & ? & H1 & H2 & _).
    apply revert_if_Ok in H1. destruct H1 as (_ & -> & _).
    rewrite nonReentrant_entered in H2; done.
  - apply frame_grows; [done|]. unfold nonpayable in H. apply bind_Ok in H.
    destruct H as (? & ? & ? & ? & H1 & H2 & _).
    apply revert_if_Ok in H1. destruct H1 as (_ & -> & _).
    apply pause_Ok in H2. by destruct H2 as (_ & _ & -> & _).
  - apply frame_grows; [done|]. unfold nonpayable in H. apply bind_Ok in H.
    destruct H as (? & ? & ? & ? & H1 & H2 & _).
    apply revert_if_Ok in H1. destruct H1 as (_ & -> & _).
    apply unpause_Ok in H2. by destruct H2 as (_ & _ & -> & _).
  - apply frame_grows; [done|]. unfold nonpayable in H. minv.
    match goal with H : getLoan _ _ = Ok _ _ _ |- _ =>
      apply getLoan_Ok in H; by destruct H as (_ & _ & _ & -> & _) end.
Qed.

Lemma reenter_grows cv now txs s s' evs :
  entered s = true →
  reenter (dispatch cv now) txs s = (s', evs) → grows s s'.
Proof.
  revert s s' evs. induction txs as [|tx txs IH]; intros s s' evs He H;
    simpl in H.
  - injection H as <- _. apply grows_refl.
  - destruct (dispatch cv now tx s) as [u s1 log|e] eqn:Hd.
    + destruct (reenter (dispatch cv now) txs s1) as [s2 evs2] eqn:Hr.
      injection H as <- _.
      pose proof (callback_grows _ _ _ _ _ _ _ He Hd) as G1.
      eapply grows_trans; [exact G1|].
      eapply IH; [|exact Hr]. rewrite (grows_entered _ _ G1). done.
    + by eapply IH.
Qed.

Lemma call_outer_breeds recipient now : breeds (call_outer recipient now).
Proof.
  intros to v s b s' log He H. unfold call_outer, transfer in H.
  destruct (balance s <? v); [injection H as _ <- _; apply grows_refl|].
  destruct (accepted _); [|injection H as _ <- _; apply grows_refl].
  destruct (reenter _ _ _) as [s2 evs] eqn:Hr. injection H as _ <- _.
  apply reenter_grows in Hr; [|done]. destruct Hr. split; auto.
Qed.

Lemma fundLoan_born cv now sender value id s u s' log :
  breeds cv → fundLoan cv now sender value id s = Ok u s' log →
  born_since s s'.
Proof.
  intros Hcv H. unfold fundLoan in H. minv. bools.
  match goal with H : cv _ _ _ = Ok _ _ _ |- _ =>
    apply Hcv in H; [|done]; destruct H as [_ _ _ Hb] end.
  intros j Hj1 Hj2. by apply Hb.
Qed.

Lemma claimCollateral_born cv now sender id s u s' log :
  breeds cv → claimCollateral cv now sender id s = Ok u s' log →
  born_since s s'.
Proof.
  intros Hcv H. unfold claimCollateral in H. minv. bools.
  match goal with H : cv _ _ _ = Ok _ _ _ |- _ =>
    apply Hcv in H; [|done]; destruct H as [_ _ _ Hb] end.
  intros j Hj1 Hj2. by apply Hb.
Qed.

Lemma repay_born cv sender value id s u s' log :
  breeds cv → repay cv sender value id s = Ok u s' log → born_since s s'.
Proof.
  intros Hcv H. unfold repay in H. minv. bools.
  match goal with H : cv _ _ _ = Ok _ _ _ |- _ =>
    apply Hcv in H; [|done]; destruct H as [He1 Hn1 Hl1 Hb1] end.
  simpl in *.
  match goal with H : (if ?c then _ else _) _ = Ok _ _ _ |- _ =>
    destruct c end; [|minv; intros j ??; by apply Hb1].
  minv.
  match goal with H : (if ?c then _ else _) _ = Ok _ _ _ |- _ =>
    destruct c end.
  - minv.
    match goal with H : cv _ _ _ = Ok _ _ _ |- _ =>
      apply Hcv in H; [|done]; destruct H as [He2 Hn2 Hl2 Hb2] end.
    simpl in *. intros j Hj1 Hj2.
    rewrite loanAt_with_entered. simpl in Hj2.
    match type of Hn2 with nextLoanId ?s1 ≤ _ =>
      destruct (decide (j < nextLoanId s1)) as [Hlt|Hge] end.
    + rewrite Hl2 by done. rewrite loanAt_with_loans.
      rewrite !lookup_total_insert_ne by lia. by apply Hb1.
    + apply Hb2; [lia|done].
  - minv. intros j Hj1 Hj2. rewrite loanAt_with_entered. simpl in Hj2.
    rewrite loanAt_with_loans.
    rewrite lookup_total_insert_ne by lia. by apply Hb1.
Qed.

Lemma execute_born recipient now tx s u s' log :
  execute recipient now tx s = Ok u s' log → born_since s s'.
Proof.
  intros H. destruct tx as [sender value call].
  unfold execute, dispatch in H. simpl in H.
  pose proof (call_outer_breeds recipient now) as Hcv.
  destruct call; unfold payable, nonpayable in H;
    apply bind_Ok in H; destruct H as (? & s1 & ? & ? & H1 & H2 & _);
    first [apply modify_Ok in H1; destruct H1 as [-> _]
          |apply revert_if_Ok in H1; destruct H1 as (_ & -> & _)].
  - apply createLoan_grows in H2. destruct H2 as [_ _ _ Hb]. exact Hb.
  - by apply fundLoan_born in H2.
  - by apply repay_born in H2.
  - by apply claimCollateral_born in H2.
  - apply pause_Ok in H2. destruct H2 as (_ & _ & -> & _).
    intros j ??; simpl in *; lia.
  - apply unpause_Ok in H2. destruct H2 as (_ & _ & -> & _).
    intros j ??; simpl in *; lia.
  - minv.
    match goal with H : getLoan _ _ = Ok _ _ _ |- _ =>
      apply getLoan_Ok in H; destruct H as (_ & _ & _ & -> & _) end.
    intros j ??; lia.
Qed.

(** ** The ledger invariant *)

Lemma required_covers_principal l :
  100 ≤ repaymentCapPercent l → principal l ≤ requiredRepayment l.
Proof.
  intros Hc. unfold requiredRepayment.
  rewrite <- (N.div_mul (principal l) 100) at 1 by lia.
  apply N.Div0.div_le_mono. nia.
Qed.

Lemma newborn_consistent l : newborn l → consistent l.
Proof.
  intros (Ht & Hc & Hl & Hr & Hf & Ha & Hs).
  split; try done; intros; congruence.
Qed.

Lemma loan_step_consistent now tx id l l' :
  loan_step now tx id l l' → consistent l → consistent l'.
Proof.
  intros Hstep [Ht Hc Hu Ha Hl Hz].
  pose proof Ht as (Hp & _ & Hcap & _).
  pose proof (required_covers_principal l Hcap) as Hreq.
  destruct Hstep as [|? Hf Hac Hs Hv|? Hf Hac Hs Hv Hlt|? Hf Hac Hs Hv Hge
                     |? Hf Hac Hs Hm Hlt Hpos];
    [by split|split; simpl; try done; unfold requiredRepayment in *; simpl..];
    first
      [ lia
      | intros; congruence
      | intros _; split; [done|]; destruct (Hu Hf) as (_ & -> & _); lia ].
Qed.

Lemma sound_initial deployer : sound (initial deployer).
Proof.
  split; simpl.
  - apply wf_initial.
  - lia.
  - intros; lia.
  - intros id _. unfold loanAt; simpl. by rewrite lookup_total_empty.
Qed.

Lemma sound_step recipient now tx s :
  sound s → sound (step recipient now tx s).
Proof.
  intros [Hwf H1 Hl Hz].
  pose proof (step_advance recipient now tx s (wf_entered _ Hwf)) as Hadv.
  assert (Hb : born_since s (step recipient now tx s)).
  { unfold step. destruct (execute recipient now tx s) as [u s' log|e] eqn:E.
    - by eapply execute_born.
    - intros j ??; lia. }
  pose proof (adv_next _ _ _ _ Hadv) as Hn.
  split.
  - by apply wf_step.
  - lia.
  - intros id Hid1 Hid2. destruct (decide (id < nextLoanId s)) as [Hlt|Hge].
    + eapply loan_step_consistent; [apply (adv_loans _ _ _ _ Hadv id Hlt)|].
      by apply Hl.
    + apply newborn_consistent, Hb; [lia|done].
  - intros id Hid. rewrite (adv_beyond _ _ _ _ Hadv) by done.
    apply Hz. lia.
Qed.

Lemma sound_run h s : sound s → sound (run h s).
Proof.
  revert s. induction h as [|b h IH]; intros s H; [done|].
  rewrite run_cons. apply IH, sound_step, H.
Qed.

(** ** How a loan record evolves *)

Lemma evolves_refl l : evolves l l.
Proof. split; auto; lia. Qed.

Lemma evolves_trans l1 l2 l3 : evolves l1 l2 → evolves l2 l3 → evolves l1 l3.
Proof.
  intros [] []. split; try congruence; try lia.
  intros Hf. destruct (ev_funded0 Hf) as (F & L & S).
  destruct (ev_funded1 F) as (? & ? & ?). split_and!; congruence.
Qed.

Lemma loan_step_evolves now tx id l l' : loan_step now tx id l l' → evolves l l'.
Proof.
  intros []; split; simpl; auto; try lia; try congruence; intros; congruence.
Qed.

Lemma run_evolves h s id :
  wf s → id < nextLoanId s → evolves (loanAt s id) (loanAt (run h s) id).
Proof.
  revert s. induction h as [|b h IH]; intros s Hwf Hid;
    [apply evolves_refl|].
  rewrite run_cons.
  pose proof (step_advance (blk_recipient b) (blk_now b) (blk_tx b) s
    (wf_entered _ Hwf)) as Hadv.
  eapply evolves_trans.
  - eapply loan_step_evolves, (adv_loans _ _ _ _ Hadv id Hid).
  - apply IH; [by apply wf_step|].
    pose proof (adv_next _ _ _ _ Hadv). lia.
Qed.

(** X1. Along any history since deployment, the terms of an existing loan
    (borrower, principal, revenue share, repayment cap, duration) never
    change, [totalRepaid] never decreases, [collateralAmount] is either what
    it was or zero, and once a loan is funded its lender and start time are
    fixed; the id counter never goes back. *)
Theorem loan_evolution deployer h1 h2 id :
  let s1 := run h1 (initial deployer) in
  let s2 := run h2 s1 in
  id < nextLoanId s1 →
  evolves (loanAt s1 id) (loanAt s2 id) ∧ nextLoanId s1 ≤ nextLoanId s2.
Proof.
  intros s1 s2 Hid.
  assert (W1 : wf s1) by apply wf_run, wf_initial.
  split; [by apply run_evolves|by apply run_nextLoanId].
Qed.

Lemma loan_evolution_witness :
  let h1 := [mkBlock passive 1000 (mkTx 11 2 (CreateLoan 10 10 120 WEEK));
             mkBlock passive 2000 (mkTx 22 10 (FundLoan 1))] in
  let h2 := [mkBlock passive 3000 (mkTx 11 5 (Repay 1));
             mkBlock passive 3500 (mkTx 44 0 (CreateLoan 5 10 100 WEEK));
             mkBlock passive 4000 (mkTx 11 7 (Repay 1))] in
  evolves (loanAt (run h1 (initial 99)) 1)
          (loanAt (run h2 (run h1 (initial 99))) 1).
Proof.
  intros h1 h2.
  assert (Hid : 1 < nextLoanId (run h1 (initial 99))) by (vm_compute; done).
  exact (proj1 (loan_evolution 99 h1 h2 1 Hid)).
Defined.

(** ** Consistency of the records *)

(** X2. On every ledger reached from deployment, each record that [getLoan]
    returns carries the terms [createLoan] validated (principal, revenue share
    and duration positive, cap at least 100) and a collateral not above the
    principal; [getLoan] answers exactly for the ids from 1 up to
    [nextLoanId - 1], and every other key of the mapping is blank. *)
Theorem getLoan_terms deployer h id :
  let s := run h (initial deployer) in
  (∀ l s' log, getLoan id s = Ok l s' log →
     l = loanAt s id ∧ well_termed l ∧ collateralAmount l ≤ principal l) ∧
  ((∃ l s' log, getLoan id s = Ok l s' log) ↔ 1 ≤ id ∧ id < nextLoanId s) ∧
  (nextLoanId s ≤ id → loanAt s id = zeroLoan).
Proof.
  intros s.
  assert (Hs : sound s) by apply sound_run, sound_initial.
  split_and!.
  - intros l s' log H. apply getLoan_Ok in H.
    destruct H as (H0 & Hid & -> & _).
    destruct (sound_loans _ Hs id) as [Ht Hc _ _ _ _]; [lia|done|done].
  - split.
    + intros (l & s' & log & H). apply getLoan_Ok in H. lia.
    + intros [H1 H2]. exists (loanAt s id), s, []. by fwd.
  - apply (sound_blank _ Hs).
Qed.

Lemma getLoan_terms_witness :
  ∃ l, getLoan 1 funded1 = Ok l funded1 [] ∧ well_termed l.
Proof.
  pose proof (getLoan_terms 99
    [mkBlock passive 1000 (mkTx 11 2 (CreateLoan 10 10 120 WEEK));
     mkBlock passive 2000 (mkTx 22 10 (FundLoan 1))] 1) as (H & _ & _).
  exists (loanAt funded1 1). split; [reflexivity|].
  exact (proj1 (proj2 (H (loanAt funded1 1) funded1 [] eq_refl))).
Defined.

(** X3. On every ledger reached from deployment and for every existing loan:
    an unfunded loan has no lender, nothing repaid, no start time and is not
    active; an active loan is funded and has repaid less than the required
    repayment; a funded loan's lender is not its borrower; and a closed loan
    (funded, no longer active) holds no collateral. *)
Theorem lifecycle_consistent deployer h id :
  let l := loanAt (run h (initial deployer)) id in
  1 ≤ id → id < nextLoanId (run h (initial deployer)) →
  (funded l = false →
     lender l = 0 ∧ totalRepaid l = 0 ∧ startTime l = 0 ∧ active l = false) ∧
  (active l = true → funded l = true ∧ totalRepaid l < requiredRepayment l) ∧
  (funded l = true → lender l ≠ borrower l) ∧
  (funded l = true → active l = false → collateralAmount l = 0).
Proof.
  intros l H1 H2.
  assert (Hs : sound (run h (initial deployer)))
    by apply sound_run, sound_initial.
  destruct (sound_loans _ Hs id H1 H2). done.
Qed.

Lemma lifecycle_consistent_witness :
  let l := loanAt funded1 1 in
  funded l = true ∧ totalRepaid l < requiredRepayment l ∧
  lender l ≠ borrower l.
Proof.
  assert (H1 : (1 : N) ≤ 1) by done.
  assert (H2 : 1 < nextLoanId
    (run [mkBlock passive 1000 (mkTx 11 2 (CreateLoan 10 10 120 WEEK));
          mkBlock passive 2000 (mkTx 22 10 (FundLoan 1))] (initial 99)))
    by (vm_compute; done).
  pose proof (lifecycle_consistent 99
    [mkBlock passive 1000 (mkTx 11 2 (CreateLoan 10 10 120 WEEK));
     mkBlock passive 2000 (mkTx 22 10 (FundLoan 1))] 1 H1 H2)
    as (_ & Ha & Hl & _).
  destruct (Ha eq_refl) as [Hf Hr].
  split; [exact Hf|]. split; [exact Hr|exact (Hl Hf)].
Defined.

(** X4. On every ledger reached from deployment, the collateral recorded
    for all loans together never exceeds what the ledger holds. *)
Theorem ledger_solvent deployer h :
  locked (loans (run h (initial deployer)))
  ≤ balance (run h (initial deployer)).
Proof. apply wf_solvent, wf_run, wf_initial. Qed.

(** ** Errors that cannot happen *)

Lemma call_outer_total recipient now to v s :
  ∃ b s' log, call_outer recipient now to v s = Ok b s' log.
Proof.
  unfold call_outer, transfer. destruct (balance s <? v); [eauto|].
  destruct (accepted _); [|eauto]. destruct (reenter _ _ _). eauto.
Qed.

(** Follow every branch of the code. *)
Ltac branches :=
  repeat first
    [ match goal with
      | |- context [if ?c then _ else _] => destruct c eqn:?; simpl
      end
    | match goal with
      | |- context [call_outer ?r ?n ?a ?v ?st] =>
          let H := fresh "Hc" in
          destruct (call_outer_total r n a v st) as (? & ? & ? & H);
          rewrite H; simpl
      end ].

(** X5. On every ledger reached from deployment no call ever fails as
    "loan already active" or as "loan fully repaid": a loan that is active is
    already funded, which [fundLoan] tests first, and a loan that has repaid
    its due is no longer active, which [claimCollateral] tests first. *)
Theorem dead_errors deployer h recipient now tx :
  execute recipient now tx (run h (initial deployer))
    ≠ Revert LoanAlreadyActive ∧
  execute recipient now tx (run h (initial deployer))
    ≠ Revert LoanFullyRepaid.
Proof.
  set (s := run h (initial deployer)).
  assert (Hs : sound s) by apply sound_run, sound_initial.
  destruct tx as [sender value [a r c d|id|id|id| | |id]].
  - split; munfold; simpl; branches; discriminate.
  - split; munfold; simpl; branches; try discriminate.
    bools. rewrite ?loanAt_with_entered, ?loanAt_with_balance in *.
    destruct (sound_loans _ Hs id) as [_ _ _ Ha _ _]; [lia|done|].
    destruct Ha; congruence.
  - split; munfold; simpl; branches; discriminate.
  - split; munfold; simpl; branches; try discriminate.
    bools. rewrite ?loanAt_with_entered, ?loanAt_with_balance in *.
    destruct (sound_loans _ Hs id) as [_ _ _ Ha _ _]; [lia|done|].
    destruct Ha as [_ Hlt]; [done|]. unfold requiredRepayment in Hlt. lia.
  - split; munfold; simpl; branches; discriminate.
  - split; munfold; simpl; branches; discriminate.
  - split; munfold; simpl; branches; discriminate.
Qed.

(** ** The state machine of a loan *)

(** X6. A transaction sent from outside leaves the record of an existing
    loan as it was, or moves it by exactly one of four transitions, each made
    only by the matching call on that very loan: funding of an unfunded loan
    by someone other than the borrower with exactly the principal; a partial
    repayment by the borrower of a funded, active loan; a repayment reaching
    the required repayment, which closes it and zeroes the collateral; a
    default claim by the lender after maturity, under-repaid and with
    collateral.  Loans it adds are unfunded and the id counter does not go
    back. *)
Theorem loan_transitions recipient now tx s id :
  entered s = false → id < nextLoanId s →
  let s' := step recipient now tx s in
  loan_step now tx id (loanAt s id) (loanAt s' id) ∧
  nextLoanId s ≤ nextLoanId s' ∧
  (∀ j, nextLoanId s ≤ j → j < nextLoanId s' → newborn (loanAt s' j)) ∧
  entered s' = false.
Proof.
  intros He Hid s'.
  pose proof (step_advance recipient now tx s He) as Hadv.
  split_and!.
  - by apply (adv_loans _ _ _ _ Hadv).
  - apply (adv_next _ _ _ _ Hadv).
  - subst s'. unfold step.
    destruct (execute recipient now tx s) as [u s1 log|e] eqn:E.
    + by eapply execute_born.
    + intros j ??; lia.
  - apply (adv_entered _ _ _ _ Hadv).
Qed.

Lemma loan_transitions_witness :
  loan_step 2000 (mkTx 22 10 (FundLoan 1)) 1
    (loanAt created 1) (loanAt funded1 1).
Proof.
  assert (Hid : 1 < nextLoanId created) by (vm_compute; done).
  exact (proj1 (loan_transitions passive 2000 (mkTx 22 10 (FundLoan 1))
                  created 1 eq_refl Hid)).
Defined.

(** ** Creation and funding *)

(** X7. A successful [createLoan] takes the current [nextLoanId] as the id
    of the new loan and advances the counter by one; it writes the record with
    the caller as borrower, the given terms, the attached value as collateral
    and everything else zero; [getLoan] of that id then returns this record;
    no other loan changes; the ledger's balance grows by the attached value;
    and the creation event carries the id and all terms. *)
Theorem createLoan_getLoan recipient now sender value a r c d s u s' log :
  1 ≤ nextLoanId s →
  execute recipient now (mkTx sender value (CreateLoan a r c d)) s
    = Ok u s' log →
  let id := nextLoanId s in
  let record := mkLoan sender 0 a r c 0 false false value 0 d in
  nextLoanId s' = id + 1 ∧
  getLoan id s' = Ok record s' [] ∧
  (∀ j, j ≠ id → loanAt s' j = loanAt s j) ∧
  balance s' = balance s + value ∧
  paused s' = paused s ∧ owner s' = owner s ∧ entered s' = entered s ∧
  log = [Store id SRecord; Emit (LoanCreated id sender a r c d value)].
Proof.
  intros Hn H id record. rewrite execute_createLoan in H.
  apply createLoan_Ok in H.
  destruct H as (_ & _ & _ & _ & _ & _ & _ & -> & ->). simpl.
  split_and!; try done.
  - fwd. rewrite loanAt_with_loans. simpl.
    by rewrite lookup_total_insert_eq.
  - intros j Hj. rewrite loanAt_with_loans. simpl.
    by rewrite lookup_total_insert_ne.
Qed.

Lemma createLoan_getLoan_witness :
  getLoan 1 created = Ok (mkLoan 11 0 10 10 120 0 false false 2 0 WEEK) created []
  ∧ nextLoanId created = 2.
Proof.
  assert (Hn : 1 ≤ nextLoanId (initial 99)) by done.
  destruct (execute passive 1000 (mkTx 11 2 (CreateLoan 10 10 120 WEEK))
              (initial 99)) as [[] s' log|e] eqn:E;
    [|vm_compute in E; discriminate].
  pose proof (createLoan_getLoan passive 1000 11 2 10 10 120 WEEK (initial 99)
    tt s' log Hn E) as (Hnext & Hget & _).
  assert (Hs : s' = created) by (unfold created, step; by rewrite E).
  rewrite <- Hs. split; [exact Hget|exact Hnext].
Defined.

(** X8. A successful [fundLoan] records the caller as lender, sets [funded]
    and [active], stamps [startTime] with the block time and changes no other
    field; the value attached equals the principal and is passed on whole to
    the borrower, after the funding event; no other existing loan changes. *)
Theorem fundLoan_effect recipient now sender value id s u s' log :
  execute recipient now (mkTx sender value (FundLoan id)) s = Ok u s' log →
  let l := loanAt s id in
  value = principal l ∧ sender ≠ borrower l ∧
  loanAt s' id =
    mkLoan (borrower l) sender (principal l) (revenueSharePercent l)
      (repaymentCapPercent l) (totalRepaid l) true true
      (collateralAmount l) now (duration l) ∧
  (∀ j, j < nextLoanId s → j ≠ id → loanAt s' j = loanAt s j) ∧
  ∃ evs,
    log = [Store id SLender; Store id SFunded; Store id SActive;
           Store id SStartTime; Emit (LoanFunded id sender);
           Transfer (borrower l) (principal l) evs].
Proof.
  rewrite execute_fundLoan. intros H l. apply fundLoan_Ok in H.
  rewrite loanAt_with_balance in H. fold l in H.
  destruct H as (_ & (_ & _ & Hs & Hv) & _ & Hl & Heff & evs & ->).
  split_and!; try done.
  - intros j Hj Hne. rewrite (eff_others _ _ _ _ _ Heff) by done.
    apply loanAt_with_balance.
  - exists evs. by rewrite Hv.
Qed.

Lemma fundLoan_effect_witness :
  loanAt funded1 1 = mkLoan 11 22 10 10 120 0 true true 2 2000 WEEK.
Proof.
  destruct (execute passive 2000 (mkTx 22 10 (FundLoan 1)) created)
    as [[] s' log|e] eqn:E; [|vm_compute in E; discriminate].
  pose proof (fundLoan_effect passive 2000 22 10 1 created tt s' log E)
    as (_ & _ & Hl & _).
  assert (Hs : s' = funded1) by (unfold funded1, step; by rewrite E).
  rewrite <- Hs, Hl. vm_compute. reflexivity.
Defined.

(** ** Failures of Repay and ClaimDefault *)

Lemma unknown_loan id s :
  ¬ (id ≠ 0 ∧ id < nextLoanId s) →
  (id =? 0) || (nextLoanId s <=? id) = true.
Proof.
  intros Hk. apply orb_true_iff.
  destruct (decide (id = 0)) as [->|H0]; [by left|].
  right. apply N.leb_le. destruct (decide (id < nextLoanId s)); [|lia].
  exfalso. by apply Hk.
Qed.

(** X9. On a ledger that is not paused, [repay] called from outside tests,
    in this order: that the loan exists, that the caller is its borrower, that
    it is funded, that it is active, that the payment is not zero; then
    [principal * repaymentCapPercent] and [totalRepaid + payment] must fit in
    256 bits; and the lender must accept the payment.  The first test that
    fails decides the error, and the ledger is left as it was. *)
Theorem repay_failures recipient now sender value id s :
  entered s = false → paused s = false →
  let l := loanAt s id in
  let tx := mkTx sender value (Repay id) in
  let result := execute recipient now tx s in
  let known := id ≠ 0 ∧ id < nextLoanId s in
  (¬ known → result = Revert LoanDoesNotExist) ∧
  (known → borrower l ≠ sender → result = Revert NotBorrower) ∧
  (known → borrower l = sender → funded l = false →
     result = Revert LoanNotFunded) ∧
  (known → borrower l = sender → funded l = true → active l = false →
     result = Revert LoanNotActive) ∧
  (known → borrower l = sender → funded l = true → active l = true →
     (value = 0 → result = Revert RepaymentMustBePositive) ∧
     (value ≠ 0 → MAX_UINT256 < principal l * repaymentCapPercent l →
        result = Revert (Panic ARITHMETIC_OVERFLOW)) ∧
     (value ≠ 0 → principal l * repaymentCapPercent l ≤ MAX_UINT256 →
        MAX_UINT256 < totalRepaid l + value →
        result = Revert (Panic ARITHMETIC_OVERFLOW)) ∧
     (value ≠ 0 → principal l * repaymentCapPercent l ≤ MAX_UINT256 →
        totalRepaid l + value ≤ MAX_UINT256 →
        (∀ st, accepted (recipient (lender l) value st) = false) →
        result = Revert TransferFailed)) ∧
  (∀ e, result = Revert e → step recipient now tx s = s).
Proof.
  intros He Hp l tx result known. subst l tx result known. simpl.
  rewrite !execute_repay. split_and!.
  - intros Hk. apply unknown_loan in Hk.
    munfold. simpl. rewrite He. simpl. rewrite Hp. simpl. by rewrite Hk.
  - intros [] ?. by fwd.
  - intros [] ??. by fwd.
  - intros [] ???. by fwd.
  - intros [] ???. split_and!.
    + intros ->. by fwd.
    + intros ??. by fwd.
    + intros ???. by fwd.
    + intros ??? Hrej. fwd. unfold call_outer, transfer. simpl.
      rewrite Hrej.
      by destruct (_ <? _).
  - intros e H. unfold step. rewrite execute_repay. by rewrite H.
Qed.

Lemma repay_failures_witness :
  execute passive 3000 (mkTx 33 5 (Repay 1)) funded1 = Revert NotBorrower ∧
  execute passive 3000 (mkTx 11 0 (Repay 1)) funded1
    = Revert RepaymentMustBePositive.
Proof.
  assert (Hk : (1 : N) ≠ 0 ∧ 1 < nextLoanId funded1) by (vm_compute; done).
  split.
  - pose proof (repay_failures passive 3000 33 5 1 funded1 eq_refl eq_refl)
      as (_ & H & _).
    apply H; [exact Hk|vm_compute; discriminate].
  - pose proof (repay_failures passive 3000 11 0 1 funded1 eq_refl eq_refl)
      as (_ & _ & _ & _ & H & _).
    destruct (H Hk eq_refl eq_refl eq_refl) as (H0 & _).
    exact (H0 eq_refl).
Defined.

(** X10. On a ledger that is not paused, [claimCollateral] called from
    outside tests, in this order: that the loan exists, that the caller is
    its lender, that it is funded, that it is active; then, past maturity,
    that [principal * repaymentCapPercent] fits in 256 bits, that the
    repayments are below the required repayment, that there is collateral;
    and the lender must accept it.  The first test that fails decides the
    error, and the ledger is left as it was. *)
Theorem claimCollateral_failures recipient now sender id s :
  entered s = false → paused s = false →
  let l := loanAt s id in
  let tx := mkTx sender 0 (ClaimCollateral id) in
  let result := execute recipient now tx s in
  let known := id ≠ 0 ∧ id < nextLoanId s in
  (¬ known → result = Revert LoanDoesNotExist) ∧
  (known → lender l ≠ sender → result = Revert NotLender) ∧
  (known → lender l = sender → funded l = false →
     result = Revert LoanNotFunded) ∧
  (known → lender l = sender → funded l = true → active l = false →
     result = Revert LoanNotActive) ∧
  (known → lender l = sender → funded l = true → active l = true →
   startTime l + duration l < now → now ≤ MAX_UINT256 →
     (MAX_UINT256 < principal l * repaymentCapPercent l →
        result = Revert (Panic ARITHMETIC_OVERFLOW)) ∧
     (principal l * repaymentCapPercent l ≤ MAX_UINT256 →
        requiredRepayment l ≤ totalRepaid l →
        result = Revert LoanFullyRepaid) ∧
     (principal l * repaymentCapPercent l ≤ MAX_UINT256 →
        totalRepaid l < requiredRepayment l → collateralAmount l = 0 →
        result = Revert NoCollateral) ∧
     (principal l * repaymentCapPercent l ≤ MAX_UINT256 →
        totalRepaid l < requiredRepayment l → 0 < collateralAmount l →
        (∀ st, accepted (recipient (lender l) (collateralAmount l) st) = false) →
        result = Revert TransferFailed)) ∧
  (∀ e, result = Revert e → step recipient now tx s = s).
Proof.
  intros He Hp l tx result known. subst l tx result known. simpl.
  rewrite !execute_claimCollateral. unfold requiredRepayment. split_and!.
  - intros Hk. apply unknown_loan in Hk.
    munfold. simpl. rewrite He. simpl. rewrite Hp. simpl. by rewrite Hk.
  - intros [] ?. by fwd.
  - intros [] ??. by fwd.
  - intros [] ???. by fwd.
  - intros [] Hl Hf Ha Hm Hnow.
    assert (Hfit : startTime (loanAt s id) + duration (loanAt s id)
                   ≤ MAX_UINT256) by lia.
    split_and!.
    + intros ?. by fwd.
    + intros ??. by fwd.
    + intros ???. by fwd.
    + intros ??? Hrej. fwd. unfold call_outer, transfer. simpl.
      rewrite Hrej. by destruct (_ <? _).
  - intros e H. unfold step. rewrite execute_claimCollateral. by rewrite H.
Qed.

Lemma claimCollateral_failures_witness :
  execute passive 3000 (mkTx 33 0 (ClaimCollateral 1)) funded1
    = Revert NotLender ∧
  execute passive 3000 (mkTx 22 0 (ClaimCollateral 7)) funded1
    = Revert LoanDoesNotExist.
Proof.
  assert (Hk : (1 : N) ≠ 0 ∧ 1 < nextLoanId funded1) by (vm_compute; done).
  split.
  - pose proof (claimCollateral_failures passive 3000 33 1 funded1
                  eq_refl eq_refl) as (_ & H & _).
    apply H; [exact Hk|vm_compute; discriminate].
  - pose proof (claimCollateral_failures passive 3000 22 7 funded1
                  eq_refl eq_refl) as (H & _).
    apply H. vm_compute. intros [_ Hlt]. discriminate.
Defined.

(** ** Terms that overflow *)

Lemma step_frozen recipient now tx s id :
  wf s → funded (loanAt s id) = true →
  MAX_UINT256 < principal (loanAt s id) * repaymentCapPercent (loanAt s id) →
  loanAt (step recipient now tx s) id = loanAt s id.
Proof.
  intros Hwf Hf Hbig. pose proof (wf_entered _ Hwf) as He.
  assert (Hid : id < nextLoanId s).
  { destruct (decide (id < nextLoanId s)); [done|].
    destruct (wf_unused _ Hwf id); [lia|congruence]. }
  unfold step.
  destruct (execute recipient now tx s) as [u s' log|e] eqn:H; [|done].
  pose proof (execute_advance _ _ _ _ _ _ _ He H) as Ha.
  pose proof (adv_loans _ _ _ _ Ha id Hid) as Hl.
  destruct tx as [sender value call].
  inversion Hl as [Heq|Hc|Hc|Hc|Hc]; simpl in *; try subst call; try congruence.
  - rewrite execute_repay in H. apply repay_Ok in H.
    rewrite loanAt_with_balance in H.
    destruct H as (_ & (_ & _ & _ & _ & ? & _) & _). lia.
  - rewrite execute_repay in H. apply repay_Ok in H.
    rewrite loanAt_with_balance in H.
    destruct H as (_ & (_ & _ & _ & _ & ? & _) & _). lia.
  - unfold execute, dispatch, nonpayable in H. simpl in H.
    apply bind_Ok in H. destruct H as (? & ? & ? & ? & Hv & Hb & _).
    apply revert_if_Ok in Hv. destruct Hv as (_ & -> & _).
    apply claimCollateral_Ok in Hb.
    destruct Hb as (_ & (_ & _ & _ & _ & _ & ? & _) & _). lia.
Qed.

(** X11. [createLoan] puts no upper bound on the repayment cap.  Once a loan
    whose [principal * repaymentCapPercent] does not fit in 256 bits is
    funded, its record never changes again: every repayment and every claim
    of its collateral reverts on that product, so the loan stays active and
    its collateral stays in the contract. *)
Theorem overflowing_cap_freezes h s id :
  wf s → funded (loanAt s id) = true →
  MAX_UINT256 < principal (loanAt s id) * repaymentCapPercent (loanAt s id) →
  loanAt (run h s) id = loanAt s id.
Proof.
  intros Hwf Hf Hbig.
  apply (run_preserves (λ s', loanAt s' id = loanAt s id)); [|done|done].
  intros recipient now tx s1 Hwf1 Heq.
  rewrite <- Heq. apply step_frozen; [done|congruence|by rewrite Heq].
Qed.

Lemma overflowing_cap_freezes_witness :
  let s := run [mkBlock passive 1000 (mkTx 11 2 (CreateLoan 10 10 (2 ^ 255) WEEK));
                mkBlock passive 2000 (mkTx 22 10 (FundLoan 1))] (initial 99) in
  let later := [mkBlock passive 3000 (mkTx 11 5 (Repay 1));
                mkBlock passive (3000 + WEEK) (mkTx 22 0 (ClaimCollateral 1))] in
  active (loanAt s 1) = true ∧ collateralAmount (loanAt s 1) = 2 ∧
  loanAt (run later s) 1 = loanAt s 1.
Proof.
  intros s later. split_and!; [by vm_compute|by vm_compute|].
  apply (overflowing_cap_freezes later s 1).
  - apply wf_run, wf_initial.
  - by vm_compute.
  - by vm_compute.
Defined.

(** X12. On every ledger reached from deployment that is not paused, a claim
    on the collateral of a loan that nobody has funded yet fails as "not the
    lender" whoever calls, the zero address apart: the lender of such a loan
    is still the zero address, and the lender is tested before the funding. *)
Theorem claimCollateral_unfunded deployer h recipient now sender id :
  let s := run h (initial deployer) in
  paused s = false → 1 ≤ id → id < nextLoanId s →
  funded (loanAt s id) = false → sender ≠ 0 →
  execute recipient now (mkTx sender 0 (ClaimCollateral id)) s
    = Revert NotLender.
Proof.
  intros s Hp H1 Hid Hf Hs.
  assert (Hsound : sound s) by apply sound_run, sound_initial.
  pose proof (wf_entered _ (sound_wf _ Hsound)) as He.
  destruct (cons_unfunded _ (sound_loans _ Hsound id H1 Hid) Hf) as (Hl & _).
  rewrite execute_claimCollateral. by fwd.
Qed.

Lemma claimCollateral_unfunded_witness :
  execute passive 5000 (mkTx 22 0 (ClaimCollateral 1)) created
    = Revert NotLender.
Proof.
  apply (claimCollateral_unfunded 99
           [mkBlock passive 1000 (mkTx 11 2 (CreateLoan 10 10 120 WEEK))]
           passive 5000 22 1); by vm_compute.
Defined.

(** ** A borrower that cannot be paid *)

(** X13. The repayment that reaches the cap returns the collateral to the
    borrower in the same call.  If the borrower's address refuses incoming
    transfers, no repayment that reaches the cap of a loan with collateral
    ever succeeds. *)
Theorem repay_refused_collateral recipient now sender value id s :
  let l := loanAt s id in
  0 < collateralAmount l → requiredRepayment l ≤ totalRepaid l + value →
  (∀ v st, accepted (recipient (borrower l) v st) = false) →
  ∀ u s' log,
    execute recipient now (mkTx sender value (Repay id)) s ≠ Ok u s' log.
Proof.
  intros l Hc Hreq Hrej u s' log H. subst l.
  rewrite execute_repay in H. unfold repay in H. minv. mnorm. bools.
  rewrite ?loanAt_with_entered, ?loanAt_with_balance in *. subst.
  match goal with Hcall : call_outer _ _ _ _ _ = Ok true ?st _ |- _ =>
    eapply (store_call_effect _ _ id
      (λ l, set_totalRepaid (totalRepaid l + value) l)
      _ _ (with_entered true (with_balance (balance s + value) s))) in Hcall;
    [destruct Hcall as (E1 & E2 & E3 & _)|done|done] end.
  rewrite ?loanAt_with_entered, ?loanAt_with_balance in *.
  unfold requiredRepayment in Hreq.
  match goal with Hif : (if ?c then _ else _) _ = Ok _ _ _ |- _ =>
    destruct c eqn:Hcap; bools; [|lia] end.
  minv. mnorm. rewrite E3 in *. simpl in *.
  match goal with Hif : (if ?c then _ else _) _ = Ok _ _ _ |- _ =>
    destruct c eqn:Hcol; bools; [|lia] end.
  minv. bools. subst.
  match goal with Hcall : call_outer _ _ _ _ _ = Ok true _ _ |- _ =>
    unfold call_outer, transfer in Hcall; rewrite Hrej in Hcall;
    by destruct (_ <? _) in Hcall end.
Qed.

Lemma repay_refused_collateral_witness :
  let refusing : Recipient :=
    λ to _ _, mkReply (negb (to =? 11)) [] in
  match execute refusing 3000 (mkTx 11 12 (Repay 1)) funded1 with
  | Ok _ _ _ => False
  | Revert e => e = TransferFailed
  end.
Proof.
  intros refusing.
  destruct (execute refusing 3000 (mkTx 11 12 (Repay 1)) funded1)
    as [u s' log|e] eqn:H.
  - apply (repay_refused_collateral refusing 3000 11 12 1 funded1)
      in H; [done|by vm_compute..].
  - vm_compute in H. by injection H as <-.
Defined.

(** ** What the recipients of transfers cannot influence *)

Lemma nonpayable_Ok {body : M unit} {value s u s' log} :
  nonpayable value body s = Ok u s' log → value = 0 ∧ body s = Ok u s' log.
Proof.
  unfold nonpayable. intros H. apply bind_Ok in H.
  destruct H as (? & ? & l1 & l2 & Hv & Hb & ->).
  apply revert_if_Ok in Hv. destruct Hv as (Hv & -> & ->). bools.
  split; [done|]. by destruct u.
Qed.

(** X14. The accounts paid during a transaction may react as they like,
    calling back into the ledger included (where [createLoan] is open to
    them): the records of the loans that existed before the transaction are
    the same after it, whenever it succeeds. *)
Theorem recipients_cannot_steer r1 r2 now tx s u1 s1 log1 u2 s2 log2 id :
  execute r1 now tx s = Ok u1 s1 log1 →
  execute r2 now tx s = Ok u2 s2 log2 →
  id < nextLoanId s →
  loanAt s1 id = loanAt s2 id.
Proof.
  intros H1 H2 Hid. destruct tx as [sender value [a r c d|k|k|k| | |k]].
  - rewrite execute_createLoan in H1, H2.
    apply createLoan_Ok in H1, H2.
    destruct H1 as (_ & _ & _ & _ & _ & _ & _ & -> & _).
    by destruct H2 as (_ & _ & _ & _ & _ & _ & _ & -> & _).
  - rewrite execute_fundLoan in H1, H2.
    apply fundLoan_Ok in H1, H2. rewrite loanAt_with_balance in H1, H2.
    destruct H1 as (_ & _ & _ & L1 & E1 & _).
    destruct H2 as (_ & _ & _ & L2 & E2 & _).
    destruct (decide (id = k)) as [->|Hne]; [congruence|].
    rewrite (eff_others _ _ _ _ _ E1), (eff_others _ _ _ _ _ E2); done.
  - rewrite execute_repay in H1, H2.
    apply repay_Ok in H1, H2. rewrite loanAt_with_balance in H1, H2.
    destruct H1 as (_ & _ & _ & E1 & ? & L1).
    destruct H2 as (_ & _ & _ & E2 & ? & L2).
    destruct (decide (id = k)) as [->|Hne].
    + destruct L1 as [(? & -> & _)|[(? & ? & -> & _)|(? & ? & -> & _)]],
               L2 as [(? & -> & _)|[(? & ? & -> & _)|(? & ? & -> & _)]];
        done || lia.
    + rewrite (eff_others _ _ _ _ _ E1), (eff_others _ _ _ _ _ E2); done.
  - unfold execute, dispatch in H1, H2. simpl in H1, H2.
    apply nonpayable_Ok in H1, H2. destruct H1 as [_ H1], H2 as [_ H2].
    apply claimCollateral_Ok in H1, H2.
    destruct H1 as (_ & _ & _ & L1 & E1 & _).
    destruct H2 as (_ & _ & _ & L2 & E2 & _).
    destruct (decide (id = k)) as [->|Hne]; [congruence|].
    rewrite (eff_others _ _ _ _ _ E1), (eff_others _ _ _ _ _ E2); done.
  - unfold execute, dispatch in H1, H2. simpl in H1, H2.
    apply nonpayable_Ok in H1, H2. destruct H1 as [_ H1], H2 as [_ H2].
    apply pause_Ok in H1, H2.
    destruct H1 as (_ & _ & -> & _). by destruct H2 as (_ & _ & -> & _).
  - unfold execute, dispatch in H1, H2. simpl in H1, H2.
    apply nonpayable_Ok in H1, H2. destruct H1 as [_ H1], H2 as [_ H2].
    apply unpause_Ok in H1, H2.
    destruct H1 as (_ & _ & -> & _). by destruct H2 as (_ & _ & -> & _).
  - unfold execute, dispatch in H1, H2. simpl in H1, H2.
    apply nonpayable_Ok in H1, H2. destruct H1 as [_ H1], H2 as [_ H2].
    unfold getLoan in H1, H2. minv. done.
Qed.

Lemma recipients_cannot_steer_witness :
  let eager : Recipient :=
    λ to _ _, mkReply true [mkTx to 0 (CreateLoan 5 5 100 WEEK)] in
  let tx := mkTx 22 10 (FundLoan 1) in
  nextLoanId (step passive 2000 tx created) = 2 ∧
  nextLoanId (step eager 2000 tx created) = 3 ∧
  loanAt (step passive 2000 tx created) 1
    = loanAt (step eager 2000 tx created) 1.
Proof.
  intros eager tx. split; [by vm_compute|]. split; [by vm_compute|].
  unfold step.
  destruct (execute passive 2000 tx created) as [u1 s1 log1|e1] eqn:H1;
    [|vm_compute in H1; discriminate].
  destruct (execute eager 2000 tx created) as [u2 s2 log2|e2] eqn:H2;
    [|vm_compute in H2; discriminate].
  apply (recipients_cannot_steer passive eager 2000 tx created
           u1 s1 log1 u2 s2 log2 1 H1 H2).
  by vm_compute.
Defined.

(** ** The pause switch *)

(** X15. On a ledger that is not paused, [pause] called by the owner switches
    the pause on, a second [pause] is then refused, and [unpause] brings the
    ledger back exactly as it was; whoever is not the owner is refused before
    the position of the switch is looked at. *)
Theorem pause_unpause_roundtrip recipient now recipient' now' sender s :
  paused s = false →
  let p := mkTx (owner s) 0 Pause in
  let q := mkTx (owner s) 0 Unpause in
  let s1 := step recipient now p s in
  paused s1 = true ∧
  execute recipient' now' p s1 = Revert EnforcedPause ∧
  step recipient' now' q s1 = s ∧
  (sender ≠ owner s →
   execute recipient now (mkTx sender 0 Pause) s
     = Revert (OwnableUnauthorizedAccount sender) ∧
   execute recipient now (mkTx sender 0 Unpause) s
     = Revert (OwnableUnauthorizedAccount sender)).
Proof.
  intros Hp p q s1.
  assert (H1 : s1 = with_paused true s).
  { subst s1 p. unfold step. munfold. simpl.
    rewrite N.eqb_refl. simpl. by rewrite Hp. }
  rewrite H1. split_and!.
  - done.
  - subst p. munfold. simpl. by rewrite N.eqb_refl.
  - subst q. unfold step. munfold. simpl. rewrite N.eqb_refl. simpl.
    destruct s. simpl in *. by subst.
  - intros Hs. split; munfold; simpl.
    + assert (E : (owner s =? sender) = false) by (apply N.eqb_neq; done).
      by rewrite E.
    + assert (E : (owner s =? sender) = false) by (apply N.eqb_neq; done).
      by rewrite E.
Qed.

Lemma pause_unpause_roundtrip_witness :
  step passive 3000 (mkTx 99 0 Unpause)
    (step passive 2500 (mkTx 99 0 Pause) funded1) = funded1.
Proof.
  pose proof (pause_unpause_roundtrip passive 2500 passive 3000 11 funded1
                eq_refl)
    as (_ & _ & H & _).
  exact H.
Defined.

(** * The second copy of the contract *)

Ltac lunfold :=
  unfold Legacy.createLoan, Legacy.fundLoan, Legacy.repay,
    Legacy.claimCollateral, Legacy.getLoan, Legacy.onlyBorrower,
    Legacy.onlyLender, Legacy.loanExists, Legacy.loanActive,
    Legacy.loanFunded, Legacy.require, nonReentrant, checked_add, checked_mul,
    store, load, emit, tell, modify, get, revert_if, revert, mbind, M_bind,
    mret, M_ret.

Ltac lfwd1 :=
  first
    [ progress
        (rewrite ?loanAt_with_entered, ?loanAt_with_balance,
           ?loanAt_insert_eq; simpl)
    | fwd1 ].

(** X16. The contract accepts a request for a loan only if the second copy
    accepts it too, and then both do the same: same record, same identifier,
    same event.  The other way round holds when the ledger is not paused and
    the collateral does not exceed the principal, the two tests that only
    the contract makes. *)
Theorem createLoan_refines_legacy sender value a r c d s u s' log :
  (createLoan sender value a r c d s = Ok u s' log →
   Legacy.createLoan sender value a r c d s = Ok u s' log) ∧
  (paused s = false → value ≤ a →
   Legacy.createLoan sender value a r c d s = Ok u s' log →
   createLoan sender value a r c d s = Ok u s' log).
Proof.
  split.
  - intros H. apply createLoan_Ok in H.
    destruct H as (Hp & Ha & Hr & Hc & Hd & Hv & Hn & -> & ->).
    destruct u. lunfold. simpl. repeat fwd1. done.
  - intros Hp Hv H. unfold Legacy.createLoan, Legacy.require in H.
    minv. bools. fwd. by destruct u.
Qed.

Lemma createLoan_refines_legacy_witness :
  ∃ s' log,
    createLoan 11 2 10 10 120 WEEK (initial 99) = Ok tt s' log ∧
    Legacy.createLoan 11 2 10 10 120 WEEK (initial 99) = Ok tt s' log.
Proof.
  destruct (createLoan 11 2 10 10 120 WEEK (initial 99))
    as [[] s' log|e] eqn:H; [|vm_compute in H; discriminate].
  exists s', log. split; [done|].
  by apply (createLoan_refines_legacy 11 2 10 10 120 WEEK (initial 99)).
Defined.

Lemma call_inner_Ok recipient to amount s ok s' log :
  call_inner recipient to amount s = Ok ok s' log →
  (ok = false ∧ s' = s) ∨
  (ok = true ∧ s' = with_balance (balance s - amount) s).
Proof.
  unfold call_inner, transfer. intros H.
  destruct (balance s <? amount); [left; by simplify_eq|].
  destruct (accepted _); simplify_eq; auto.
Qed.

(** X17. In the second copy of the contract, once a repayment has reached
    the cap the lender's claim on the collateral is refused as "Loan is not
    active": the closing repayment has switched the loan off, and the claim
    tests that before it compares the repayments with the cap. *)
Theorem legacy_claim_after_closing r1 r2 now sender value id s u s' log :
  Legacy.repay (call_inner r1) sender value id s = Ok u s' log →
  requiredRepayment (loanAt s id) ≤ totalRepaid (loanAt s id) + value →
  Legacy.claimCollateral (call_inner r2) now (lender (loanAt s id)) id s'
    = Revert (ErrorString "Loan is not active").
Proof.
  intros H Hreq. unfold requiredRepayment in Hreq.
  unfold Legacy.repay, Legacy.loanExists, Legacy.onlyBorrower,
    Legacy.loanFunded, Legacy.loanActive, Legacy.require in H.
  minv. bools. subst.
  match goal with Hc : call_inner _ _ _ _ = Ok true _ _ |- _ =>
    apply call_inner_Ok in Hc; destruct Hc as [[? _]|[_ ->]]; [done|] end.
  mnorm. simpl in *.
  match goal with Hif : (if ?c then _ else _) _ = Ok _ _ _ |- _ =>
    destruct c eqn:Hcap; bools; [|lia] end.
  minv. mnorm. simpl in *.
  match goal with Hif : (if ?c then _ else _) _ = Ok _ _ _ |- _ =>
    destruct c eqn:Hcol end.
  - minv. mnorm. bools. subst.
    match goal with Hc : call_inner _ _ _ _ = Ok true _ _ |- _ =>
      apply call_inner_Ok in Hc; destruct Hc as [[? _]|[_ ->]]; [done|] end.
    lunfold. simpl. repeat lfwd1. done.
  - minv. lunfold. simpl. repeat lfwd1. done.
Qed.

Lemma legacy_claim_after_closing_witness :
  ∃ s' log,
    payable 12 (Legacy.repay Legacy.pay 11 12 1) Legacy.funded1
      = Ok tt s' log ∧
    Legacy.claimCollateral Legacy.pay (3000 + WEEK) 22 1 s'
      = Revert (ErrorString "Loan is not active").
Proof.
  set (s := with_balance (balance Legacy.funded1 + 12) Legacy.funded1).
  destruct (Legacy.repay (call_inner passive) 11 12 1 s)
    as [[] s' log|e] eqn:H; [|vm_compute in H; discriminate].
  exists s', log. split.
  - unfold payable, Legacy.pay.
    rewrite (bind_step _ _ Legacy.funded1 tt s []) by done.
    fold s. by rewrite H.
  - apply (legacy_claim_after_closing passive passive (3000 + WEEK)
             11 12 1 s tt s' log H).
    by vm_compute.
Defined.
